(** * Chat UI of chatbot-MDJ: a shallow embedding of [frontend/src/App.js]

    The React component [App] is embedded as a state machine.  The four
    [useState] cells form the record [AppState]; the two asynchronous
    functions [checkOpenAIStatus] and [sendMessage] are split at their
    [await fetch(...)] into the part that runs inside the event handler and
    the part that runs when the request settles; the JSX returned by [App]
    is embedded as the function [render] into a record of the elements,
    and [displayed] tells what React shows of them. *)

From Stdlib Require Import PrimFloat.
From stdpp Require Import base numbers list strings sorting gmap.

Local Open Scope Z_scope.

(** ** JavaScript strings

    A JavaScript string is a sequence of UTF-16 code units.  Literals of the
    source are written as they appear there (the file is UTF-8) and decoded
    to code units by [js]. *)

Module JsString.

Definition t := list N.

Definition byte_of (a : Ascii.ascii) : N := Ascii.N_of_ascii a.

Fixpoint bytes_of (s : string) : list N :=
  match s with
  | String.EmptyString => []
  | String.String a r => byte_of a :: bytes_of r
  end.

(** Code points of a well-formed UTF-8 byte sequence. *)
Fixpoint code_points (bs : list N) : list N :=
  match bs with
  | [] => []
  | b0 :: r0 =>
    if (b0 <? 128)%N then b0 :: code_points r0 else
    match r0 with
    | [] => []
    | b1 :: r1 =>
      if (b0 <? 224)%N
      then ((b0 - 192) * 64 + (b1 - 128))%N :: code_points r1 else
      match r1 with
      | [] => []
      | b2 :: r2 =>
        if (b0 <? 240)%N
        then ((b0 - 224) * 4096 + (b1 - 128) * 64 + (b2 - 128))%N
               :: code_points r2 else
        match r2 with
        | [] => []
        | b3 :: r3 =>
          ((b0 - 240) * 262144 + (b1 - 128) * 4096
           + (b2 - 128) * 64 + (b3 - 128))%N :: code_points r3
        end
      end
    end
  end.

(** UTF-16: a code point above the basic plane is a surrogate pair. *)
Definition code_units (cp : N) : list N :=
  if (cp <? 65536)%N then [cp]
  else [(55296 + (cp - 65536) / 1024)%N; (56320 + (cp - 65536) mod 1024)%N].

Definition js (s : string) : t :=
  concat (map code_units (code_points (bytes_of s))).

(** [WhiteSpace] and [LineTerminator] of ECMAScript, the code units that
    [String.prototype.trim] strips. *)
Definition isWhiteSpace (c : N) : bool :=
  bool_decide (c ∈ [ 9; 10; 11; 12; 13; 32; 160; 5760;
                     8192; 8193; 8194; 8195; 8196; 8197; 8198; 8199;
                     8200; 8201; 8202; 8232; 8233; 8239; 8287; 12288;
                     65279 ]%N).

Fixpoint trimStart (s : t) : t :=
  match s with
  | [] => []
  | c :: r => if isWhiteSpace c then trimStart r else s
  end.

Definition trimEnd (s : t) : t := rev (trimStart (rev s)).

Definition trim (s : t) : t := trimEnd (trimStart s).

(** Truthiness of a string: the empty string is the only falsy one. *)
Definition truthy (s : t) : bool :=
  match s with [] => false | _ :: _ => true end.

(** Template literal / [+] on strings. *)
Definition concat2 (a b : t) : t := a ++ b.

(** A string made of white space only (the empty string included). *)
Definition blank (s : t) : Prop := Forall (λ c, isWhiteSpace c = true) s.

End JsString.

Abbreviation jsstring := JsString.t.
Abbreviation js := JsString.js.

(** ** JavaScript values, as far as JSON and property reads produce them *)

#[warnings="-register-all"]
Inductive jsvalue : Type :=
  | VUndefined
  | VNull
  | VBool (b : bool)
  | VNum (f : float)
  | VStr (s : jsstring)
  | VArr (items : list jsvalue)
  | VObj (props : list (jsstring * jsvalue)).

(** [ToBoolean]. *)
Definition truthy (v : jsvalue) : bool :=
  match v with
  | VUndefined | VNull => false
  | VBool b => b
  | VNum f => negb (is_zero f || is_nan f)
  | VStr s => JsString.truthy s
  | VArr _ | VObj _ => true
  end.

(** Own property of a parsed JSON object (keys of a parsed object are
    distinct). *)
Fixpoint own_prop (props : list (jsstring * jsvalue)) (k : jsstring) : jsvalue :=
  match props with
  | [] => VUndefined
  | (k', v) :: r => if decide (k' = k) then v else own_prop r k
  end.

(** How a statement or an expression completes: normally with a value, or
    by throwing.  No handler of this component looks at what was thrown. *)
Inductive completion (A : Type) : Type :=
  | Normal (a : A)
  | Thrown.
Arguments Normal {A} a.
Arguments Thrown {A}.

(** Property read [v.k] for a key that no prototype defines (the two keys
    the component reads, [openai_available] and [response], are such):
    reading from [null] or [undefined] raises a [TypeError], a primitive or
    an array has no such property, an object yields its own property. *)
Definition member (v : jsvalue) (k : jsstring) : completion jsvalue :=
  match v with
  | VUndefined | VNull => Thrown
  | VObj props => Normal (own_prop props k)
  | VBool _ | VNum _ | VStr _ | VArr _ => Normal VUndefined
  end.

(** ** Component state *)

(** An entry of the message list.  [isUser] is [None] when the object
    literal has no such field. *)
Record Message : Type := mkMessage {
  id : Z;
  text : jsvalue;
  isUser : option bool;
  timestamp : jsstring
}.

(** [message.isUser] read as a condition: a missing field is [undefined]. *)
Definition isUser_truthy (m : Message) : bool :=
  match isUser m with
  | Some b => b
  | None => false
  end.

Record AppState : Type := mkApp {
  messages : list Message;
  inputMessage : jsstring;
  isLoading : bool;
  openaiStatus : jsstring
}.

(** What the environment answers when the code reads the time:
    [Date.now()], a whole number of milliseconds (far below 2^53, so that
    [Date.now() + 1] is exact), and
    [new Date().toLocaleTimeString('th-TH')]. *)
Record Clock : Type := mkClock {
  now : Z;
  localeTime : jsstring
}.

(** How a [fetch] settles: the promise rejects, or it resolves to a response
    with its [ok] flag and what [response.json()] gives ([None] when that
    promise rejects). *)
Inductive fetch_result : Type :=
  | Rejected
  | Resolved (ok : bool) (json : option jsvalue).

(** The request [sendMessage] issues.  [body] is the value handed to
    [JSON.stringify]. *)
Record ChatRequest : Type := mkRequest {
  url : jsstring;
  method : jsstring;
  headers : list (jsstring * jsstring);
  body : jsvalue
}.

Definition greeting_text : jsstring :=
  js "สวัสดีครับ! ยินดีต้อนรับสู่ AI Chatbot ของเรา 😊".

Definition apology_text : jsstring :=
  js "ขออภัยครับ เกิดข้อผิดพลาดในการเชื่อมต่อ กรุณาลองใหม่อีกครั้ง".

(** The [useState] initial values; the greeting's time stamp is read when
    the component is first rendered. *)
Definition initial (c : Clock) : AppState :=
  {| messages := [ {| id := 1;
                      text := VStr greeting_text;
                      isUser := Some false;
                      timestamp := localeTime c |} ];
     inputMessage := [];
     isLoading := false;
     openaiStatus := js "checking" |}.

(** ** Statements over the state: a state and exception monad *)

Definition M (A : Type) : Type := AppState → AppState * completion A.

Definition ret {A} (x : A) : M A := λ a, (a, Normal x).

Definition bind {A B} (m : M A) (k : A → M B) : M B := λ a,
  match m a with
  | (a', Normal x) => k x a'
  | (a', Thrown) => (a', Thrown)
  end.

Notation "'do' x <- m ; k" := (bind m (λ x, k))
  (at level 10, x name, m at level 100, k at level 200).
Notation "'do' ' p <- m ; k" := (bind m (λ x, match x with p => k end))
  (at level 10, p pattern, m at level 100, k at level 200).
Notation "m ;;; k" := (bind m (λ _, k))
  (at level 100, k at level 200, right associativity).

Definition throw {A} : M A := λ a, (a, Thrown).

Definition lift {A} (r : completion A) : M A := λ a, (a, r).

(** [try { body } catch (error) { handler }]; the handlers of this
    component never look at [error]. *)
Definition try_catch {A} (body handler : M A) : M A := λ a,
  match body a with
  | (a', Normal x) => (a', Normal x)
  | (a', Thrown) => handler a'
  end.

(** [try { body } finally { fin }]. *)
Definition try_finally {A} (body : M A) (fin : M unit) : M A := λ a,
  match body a with
  | (a', r) =>
    match fin a' with
    | (a'', Normal _) => (a'', r)
    | (a'', Thrown) => (a'', Thrown)
    end
  end.

(** The state setters.  [setMessages] is always called with an updater
    function, which React applies to the state current at that time. *)
Definition setMessages (f : list Message → list Message) : M unit := λ a,
  ({| messages := f (messages a); inputMessage := inputMessage a;
      isLoading := isLoading a; openaiStatus := openaiStatus a |}, Normal ()).

Definition setInputMessage (v : jsstring) : M unit := λ a,
  ({| messages := messages a; inputMessage := v;
      isLoading := isLoading a; openaiStatus := openaiStatus a |}, Normal ()).

Definition setIsLoading (v : bool) : M unit := λ a,
  ({| messages := messages a; inputMessage := inputMessage a;
      isLoading := v; openaiStatus := openaiStatus a |}, Normal ()).

Definition setOpenaiStatus (v : jsstring) : M unit := λ a,
  ({| messages := messages a; inputMessage := inputMessage a;
      isLoading := isLoading a; openaiStatus := v |}, Normal ()).

(** [await fetch(...)] and [await response.json()] once settled. *)
Definition awaited (o : fetch_result) : M (bool * option jsvalue) :=
  match o with
  | Rejected => throw
  | Resolved ok json => ret (ok, json)
  end.

Definition response_json (json : option jsvalue) : M jsvalue :=
  match json with
  | None => throw
  | Some data => ret data
  end.

(** ** The two asynchronous functions *)

(** [checkOpenAIStatus] from the point where [fetch('/openai-status')]
    has settled. *)
Definition checkOpenAIStatus_settled (o : fetch_result) : M unit :=
  try_catch
    (do '(ok, json) <- awaited o;
     if ok then
       do data <- response_json json;
       do available <- lift (member data (js "openai_available"));
       setOpenaiStatus
         (if truthy available then js "connected" else js "not_configured")
     else
       setOpenaiStatus (js "error"))
    (setOpenaiStatus (js "error")).

(** [sendMessage] up to its [await fetch('/chat', ...)]: [inputMessage] is
    the value of the render the handler belongs to; the result is the
    request issued, if any. *)
Definition sendMessage (inputMessage : jsstring) (c : Clock)
  : M (option ChatRequest) :=
  if negb (JsString.truthy (JsString.trim inputMessage)) then ret None else
  let currentMessage := inputMessage in
  let userMessage :=
    {| id := now c;
       text := VStr currentMessage;
       isUser := Some true;
       timestamp := localeTime c |} in
  setMessages (λ prev, prev ++ [userMessage]);;;
  setInputMessage [];;;
  setIsLoading true;;;
  ret (Some {| url := js "/chat";
               method := js "POST";
               headers := [(js "Content-Type", js "application/json")];
               body := VObj [(js "message", VStr currentMessage)] |}).

(** [sendMessage] from the point where the [fetch] has settled. *)
Definition sendMessage_settled (o : fetch_result) (c : Clock) : M unit :=
  try_finally
    (try_catch
       (do '(ok, json) <- awaited o;
        if ok then
          do data <- response_json json;
          do reply <- lift (member data (js "response"));
          let botMessage :=
            {| id := now c + 1;
               text := reply;
               isUser := Some false;
               timestamp := localeTime c |} in
          setMessages (λ prev, prev ++ [botMessage])
        else
          throw)
       (let errorMessage :=
          {| id := now c + 1;
             text := VStr apology_text;
             isUser := None;
             timestamp := localeTime c |} in
        setMessages (λ prev, prev ++ [errorMessage])))
    (setIsLoading false).

(** [handleKeyPress]: Enter without shift sends; [e.preventDefault()] has
    no effect on the state. *)
Definition handleKeyPress (key : jsstring) (shiftKey : bool)
    (inputMessage : jsstring) (c : Clock) : M (option ChatRequest) :=
  if bool_decide (key = js "Enter") && negb shiftKey
  then sendMessage inputMessage c
  else ret None.

(** ** What [App] renders

    [render] is the element tree the function [App] returns; building it
    never throws.  Only the parts of the JSX that depend on the state, and
    their fixed siblings inside the same element, are kept.  What React
    makes of the tree is [displayed], below. *)

Inductive node : Type :=
  | Text (s : jsstring)
  | Span (className : jsstring) (content : jsstring).

#[global] Instance node_eq_dec : EqDecision node.
Proof. solve_decision. Defined.

(** One [<div key=... className=...>] of the message list. *)
Record Row : Type := mkRow {
  key : Z;
  className : jsstring;
  message_text : jsvalue;
  message_timestamp : jsstring;
  message_avatar : jsstring
}.

Record View : Type := mkView {
  status : list node;
  chat_messages : list Row;
  typing_indicator : bool;
  textarea_value : jsstring;
  textarea_disabled : bool;
  send_button_disabled : bool
}.

(** [{cond && <element/>}]: nothing is rendered when [cond] is false. *)
Definition when {A} (cond : bool) (element : A) : list A :=
  if cond then [element] else [].

(** The row of one message.  [message_text] is the child [{message.text}]
    as the entry holds it, whatever value that is. *)
Definition render_message (message : Message) : Row :=
  {| key := id message;
     className :=
       JsString.concat2 (js "message ")
         (if isUser_truthy message then js "user-message"
          else js "bot-message");
     message_text := text message;
     message_timestamp := timestamp message;
     message_avatar := if isUser_truthy message then js "👤" else js "🤖" |}.

Definition render (a : AppState) : View :=
  {| status :=
       [Span (js "status-dot") []; Text (js "Online")]
       ++ when (bool_decide (openaiStatus a = js "connected"))
               (Span (js "openai-status") (js "• OpenAI"))
       ++ when (bool_decide (openaiStatus a = js "not_configured"))
               (Span (js "openai-status-warning") (js "• Basic Mode"));
     chat_messages := map render_message (messages a);
     typing_indicator := isLoading a;
     textarea_value := inputMessage a;
     textarea_disabled := isLoading a;
     send_button_disabled :=
       negb (JsString.truthy (JsString.trim (inputMessage a)))
       || isLoading a |}.

(** Whether React accepts the value as a child: a string or a number is
    text, a boolean, [null] and [undefined] show nothing, an array is
    taken child by child, and any other object makes React throw. *)
Fixpoint valid_child (v : jsvalue) : bool :=
  match v with
  | VObj _ => false
  | VArr items => forallb valid_child items
  | VUndefined | VNull | VBool _ | VNum _ | VStr _ => true
  end.

(** What is on the page: the tree [App] returned, when React can take
    every [{message.text}] as a child.  When it cannot, the render throws
    and React, with no error boundary around [App], takes the whole
    component off the page: nothing is shown. *)
Definition displayed (a : AppState) : option View :=
  if forallb (λ message, valid_child (text message)) (messages a)
  then Some (render a)
  else None.

(** ** The running component

    Besides the React state, the requests that have been issued and have
    not settled yet.  The effect that scrolls to the last message does not
    touch the state and is left out. *)

Record Sys : Type := mkSys {
  app : AppState;
  statusPending : bool;
  chatPending : list ChatRequest
}.

(** The first render followed by the mount effect, which calls
    [checkOpenAIStatus] and so issues [fetch('/openai-status')]. *)
Definition mounted (c : Clock) : Sys :=
  {| app := initial c; statusPending := true; chatPending := [] |}.

Inductive Event : Type :=
  | Change (value : jsstring)
  | Click (c : Clock)
  | KeyPress (key : jsstring) (shiftKey : bool) (c : Clock)
  | StatusSettled (o : fetch_result)
  | ChatSettled (o : fetch_result) (c : Clock).

(** The state after a handler ran, with the request it issued. *)
Definition handled (s : Sys) (r : AppState * completion (option ChatRequest))
  : Sys :=
  {| app := r.1;
     statusPending := statusPending s;
     chatPending :=
       chatPending s ++
       match r.2 with
       | Normal (Some request) => [request]
       | Normal None | Thrown => []
       end |}.

(** One event.  [None]: the event cannot occur in this state (a disabled
    control does not fire, nothing settles that was not issued). *)
Definition step (s : Sys) (e : Event) : option Sys :=
  let view := render (app s) in
  match e with
  | Change value =>
    if textarea_disabled view then None else
    Some {| app := (setInputMessage value (app s)).1;
            statusPending := statusPending s;
            chatPending := chatPending s |}
  | Click c =>
    if send_button_disabled view then None else
    Some (handled s (sendMessage (inputMessage (app s)) c (app s)))
  | KeyPress k shiftKey c =>
    if textarea_disabled view then None else
    Some (handled s (handleKeyPress k shiftKey (inputMessage (app s)) c (app s)))
  | StatusSettled o =>
    if statusPending s then
      Some {| app := (checkOpenAIStatus_settled o (app s)).1;
              statusPending := false;
              chatPending := chatPending s |}
    else None
  | ChatSettled o c =>
    match chatPending s with
    | [] => None
    | _ :: rest =>
      Some {| app := (sendMessage_settled o c (app s)).1;
              statusPending := statusPending s;
              chatPending := rest |}
    end
  end.

Fixpoint run (s : Sys) (es : list Event) : option Sys :=
  match es with
  | [] => Some s
  | e :: es' =>
    match step s e with
    | Some s' => run s' es'
    | None => None
    end
  end.

Inductive reachable : Sys → Prop :=
  | reach_mounted c : reachable (mounted c)
  | reach_step s e s' : reachable s → step s e = Some s' → reachable s'.

(** ** Notions used in the statements

    The entries and the request are named as in the source. *)

#[global] Instance blank_dec (s : jsstring) : Decision (JsString.blank s) :=
  Forall_dec _ s.

Definition userMessage (currentMessage : jsstring) (c : Clock) : Message :=
  {| id := now c; text := VStr currentMessage; isUser := Some true;
     timestamp := localeTime c |}.

Definition botMessage (reply : jsvalue) (c : Clock) : Message :=
  {| id := now c + 1; text := reply; isUser := Some false;
     timestamp := localeTime c |}.

Definition errorMessage (c : Clock) : Message :=
  {| id := now c + 1; text := VStr apology_text; isUser := None;
     timestamp := localeTime c |}.

Definition chatRequest (currentMessage : jsstring) : ChatRequest :=
  {| url := js "/chat"; method := js "POST";
     headers := [(js "Content-Type", js "application/json")];
     body := VObj [(js "message", VStr currentMessage)] |}.

(** The request succeeded: the response is OK, its body is JSON and
    [data.response] can be read. *)
Definition reply_of (o : fetch_result) : option jsvalue :=
  match o with
  | Resolved true (Some data) =>
    match member data (js "response") with
    | Normal reply => Some reply
    | Thrown => None
    end
  | Resolved true None | Resolved false _ | Rejected => None
  end.

(** The entry appended when a chat request settles. *)
Definition settled_entry (o : fetch_result) (c : Clock) : Message :=
  match reply_of o with
  | Some reply => botMessage reply c
  | None => errorMessage c
  end.

(** The status the settled status request leads to. *)
Definition status_of (o : fetch_result) : jsstring :=
  match o with
  | Resolved true (Some data) =>
    match member data (js "openai_available") with
    | Normal available =>
      if truthy available then js "connected" else js "not_configured"
    | Thrown => js "error"
    end
  | Resolved true None | Resolved false _ | Rejected => js "error"
  end.

(** A send: a click on the button, or Enter without shift in the text area. *)
Definition is_send (e : Event) (c : Clock) : Prop :=
  e = Click c ∨ e = KeyPress (js "Enter") false c.

(** The event is the settling of a chat request. *)
Definition is_chat_settled (e : Event) : Prop :=
  match e with
  | ChatSettled _ _ => True
  | _ => False
  end.

(** The event is the user editing the text area. *)
Definition is_change (e : Event) : Prop :=
  match e with
  | Change _ => True
  | _ => False
  end.

(** The state right after a send went through. *)
Definition sent (s : Sys) (c : Clock) : Sys :=
  {| app := {| messages :=
                 messages (app s) ++ [userMessage (inputMessage (app s)) c];
               inputMessage := [];
               isLoading := true;
               openaiStatus := openaiStatus (app s) |};
     statusPending := statusPending s;
     chatPending := chatPending s ++ [chatRequest (inputMessage (app s))] |}.

(** The state right after a chat request settled. *)
Definition settled (s : Sys) (o : fetch_result) (c : Clock) : Sys :=
  {| app := {| messages := messages (app s) ++ [settled_entry o c];
               inputMessage := inputMessage (app s);
               isLoading := false;
               openaiStatus := openaiStatus (app s) |};
     statusPending := statusPending s;
     chatPending := tail (chatPending s) |}.

(** The loading flag is set exactly while one request is in flight, and
    the input field is empty then. *)
Definition consistent (s : Sys) : Prop :=
  (isLoading (app s) = false ∧ chatPending s = [])
  ∨ (isLoading (app s) = true ∧ inputMessage (app s) = []
     ∧ ∃ request, chatPending s = [request]).

Definition openai_indicator : node :=
  Span (js "openai-status") (js "• OpenAI").

Definition basic_mode_indicator : node :=
  Span (js "openai-status-warning") (js "• Basic Mode").

(** The event is the settling of the status request. *)
Definition is_status_settled (e : Event) : bool :=
  match e with
  | StatusSettled _ => true
  | _ => false
  end.

(** The reading of [Date.now()] that handling the event in a state makes.
    [sendMessage] reads the clock only past its guard, so a click or a
    plain Enter on a blank input reads nothing; the settling of a request
    reads it for the reply and for the error entry alike. *)
Definition send_time (s : Sys) (e : Event) : option Z :=
  match e with
  | Click c =>
    if JsString.truthy (JsString.trim (inputMessage (app s)))
    then Some (now c) else None
  | KeyPress k shiftKey c =>
    if bool_decide (k = js "Enter") && negb shiftKey
       && JsString.truthy (JsString.trim (inputMessage (app s)))
    then Some (now c) else None
  | Change _ | StatusSettled _ | ChatSettled _ _ => None
  end.

Definition settle_time (e : Event) : option Z :=
  match e with
  | ChatSettled _ c => Some (now c)
  | Change _ | Click _ | KeyPress _ _ _ | StatusSettled _ => None
  end.

(** The last reading after the event. *)
Definition advance (last : Z) (s : Sys) (e : Event) : Z :=
  match send_time s e, settle_time e with
  | Some t, _ | None, Some t => t
  | None, None => last
  end.

(** The last reading after a run. *)
Fixpoint last_reading (last : Z) (s : Sys) (es : list Event) : Z :=
  match es with
  | [] => last
  | e :: es' =>
    match step s e with
    | Some s' => last_reading (advance last s e) s' es'
    | None => last
    end
  end.

(** The reading the event makes, if any, is not before the last one. *)
Definition not_earlier (last : Z) (s : Sys) (e : Event) : Prop :=
  match send_time s e, settle_time e with
  | Some t, _ | None, Some t => last ≤ t
  | None, None => True
  end.

(** The reading of a send is more than one millisecond after the last
    one; the reading of a settling is not before it. *)
Definition well_spaced (last : Z) (s : Sys) (e : Event) : Prop :=
  match send_time s e, settle_time e with
  | Some t, _ => last + 1 < t
  | None, Some t => last ≤ t
  | None, None => True
  end.

(** Along the run the clock never runs backwards. *)
Fixpoint nondecreasing (last : Z) (s : Sys) (es : list Event) : Prop :=
  match es with
  | [] => True
  | e :: es' =>
    not_earlier last s e
    ∧ match step s e with
      | Some s' => nondecreasing (advance last s e) s' es'
      | None => True
      end
  end.

(** Along the run the clock never runs backwards, and every send reads a
    time more than one millisecond after the reading before it (after 1
    for the first, when [last] is 0). *)
Fixpoint spaced (last : Z) (s : Sys) (es : list Event) : Prop :=
  match es with
  | [] => True
  | e :: es' =>
    well_spaced last s e
    ∧ match step s e with
      | Some s' => spaced (advance last s e) s' es'
      | None => True
      end
  end.

(** Every id is at most the last reading, plus one once the request has
    settled. *)
Definition ids_below (last : Z) (s : Sys) : Prop :=
  Forall (λ m, id m ≤ if isLoading (app s) then last else last + 1)
         (messages (app s)).

(** Concrete clock readings, a response and two states for the examples. *)
Definition morning : Clock :=
  {| now := 1700000000000; localeTime := js "10:00:00" |}.

Definition a_millisecond_later : Clock :=
  {| now := 1700000000001; localeTime := js "10:00:00" |}.

Definition hello_reply : fetch_result :=
  Resolved true (Some (VObj [(js "response", VStr (js "hello"))])).

(** The user has typed "hi" into the freshly mounted component. *)
Definition typed : Sys :=
  {| app := {| messages := messages (initial morning);
               inputMessage := js "hi";
               isLoading := false;
               openaiStatus := js "checking" |};
     statusPending := true;
     chatPending := [] |}.

(** ... and has pressed the send button. *)
Definition waiting : Sys := sent typed morning.

(** A clock reading of the given number of milliseconds. *)
Definition reading (t : Z) : Clock :=
  {| now := t; localeTime := js "10:00:00" |}.

(** An exchange at readings 10 and 10, then Enter on the empty input,
    which sends nothing and reads no time, then a new text. *)
Definition exchange_then_blank_enter : list Event :=
  [Change (js "a"); Click (reading 10); ChatSettled hello_reply (reading 10);
   KeyPress (js "Enter") false (reading 10); Change (js "b")].


(** ** Further notions

    Entries taking turns: a user entry where one is expected, any other
    entry where it is not. *)
Fixpoint alternates (expect_user : bool) (ms : list Message) : bool :=
  match ms with
  | [] => true
  | m :: r =>
    Bool.eqb (isUser_truthy m) expect_user && alternates (negb expect_user) r
  end.

(** While a request is in flight the last entry is the user entry of that
    send, and its id is at most the last clock reading. *)
Definition last_is_pending_user_entry (last : Z) (s : Sys) : Prop :=
  isLoading (app s) = true →
  ∃ ms u, messages (app s) = ms ++ [u] ∧ isUser u = Some true ∧ id u ≤ last.

(** The ids in list order increase strictly. *)
Definition ids_increasing (s : Sys) : Prop :=
  StronglySorted Z.lt (map id (messages (app s))).

(** What an OK response must carry for a reply to be read from it. *)
Definition unusable_body (json : option jsvalue) : Prop :=
  json = None ∨ json = Some VNull ∨ json = Some VUndefined.

(** ** The setup script

    The batch script that prepares the [.env] file, run by [cmd.exe] with
    the project folder as current directory.  Its state is the entries of
    that directory and the lines written to the console; [pause], which
    only waits for a key, is left out.  [writable] tells whether the
    directory accepts the two redirected writes. *)

Module SetupScript.

Inductive entry : Type :=
  | File (content : string)
  | Directory.

Record World : Type := mkWorld {
  files : gmap string entry;
  console : list string
}.

(** The line end [echo] writes. *)
Definition crlf : string :=
  String.String (Ascii.ascii_of_nat 13)
    (String.String (Ascii.ascii_of_nat 10) String.EmptyString).

(** [exist name]: true of files and of directories. *)
Definition exist (name : string) (w : World) : bool :=
  bool_decide (is_Some (files w !! name)).

(** [echo text] and [echo.] (the empty line). *)
Definition echo (text : string) (w : World) : World :=
  {| files := files w; console := console w ++ [text] |}.

(** [echo text> name]: the file is created or replaced; the write fails,
    and changes nothing, on a directory or when nothing can be written. *)
Definition echo_to (writable : bool) (text name : string) (w : World) : World :=
  match files w !! name with
  | Some Directory => w
  | Some (File _) | None =>
    if writable
    then {| files := <[name := File (text +:+ crlf)]> (files w);
            console := console w |}
    else w
  end.

(** [echo text>> name]: the line is added at the end of the file, which is
    created when there is none. *)
Definition echo_append (writable : bool) (text name : string) (w : World)
  : World :=
  match files w !! name with
  | Some Directory => w
  | Some (File content) =>
    if writable
    then {| files := <[name := File (content +:+ text +:+ crlf)]> (files w);
            console := console w |}
    else w
  | None =>
    if writable
    then {| files := <[name := File (text +:+ crlf)]> (files w);
            console := console w |}
    else w
  end.

(** The script.  The text of a redirected [echo] runs up to the [>], the
    space before it included. *)
Definition setup (writable : bool) (w : World) : World :=
  let w := echo "Setting up OpenAI API for Chatbot..." w in
  let w := echo "" w in
  let w :=
    if negb (exist ".env" w) then
      let w := echo "Creating .env file..." w in
      let w := echo_to writable "OPENAI_API_KEY=your_openai_api_key_here "
                       ".env" w in
      let w := echo_append writable "OPENAI_MODEL=gpt-3.5-turbo " ".env" w in
      let w := echo "" w in
      let w := echo ".env file created successfully!" w in
      echo "Please edit .env file and add your actual OpenAI API key" w
    else
      echo ".env file already exists!" w in
  let w := echo "" w in
  let w := echo "To get OpenAI API key:" w in
  let w := echo "1. Go to https://platform.openai.com/" w in
  let w := echo "2. Sign up or login" w in
  let w := echo "3. Go to API Keys section" w in
  let w := echo "4. Create new API key" w in
  let w := echo "5. Copy the key and paste it in .env file" w in
  let w := echo "" w in
  echo "After setting up, restart the backend server" w.

(** A project folder whose [.env] holds a key, and an empty one. *)
Definition configured : World :=
  {| files := {[ ".env" := File "OPENAI_API_KEY=sk-mine" ]}; console := [] |}.

Definition fresh : World := {| files := ∅; console := [] |}.

End SetupScript.

(** * Properties *)

Example js_ascii : js "Enter" = [69; 110; 116; 101; 114]%N.
Proof. reflexivity. Qed.

Example js_surrogates : js "🤖" = [55358; 56598]%N.
Proof. reflexivity. Qed.

Example trim_ex : JsString.trim (js "  hi  ") = js "hi".
Proof. reflexivity. Qed.

(** ** [trim] *)

Section Trim.
Import JsString.

Lemma trimStart_nil_blank (s : jsstring) : trimStart s = [] ↔ blank s.
Proof.
  unfold blank. induction s as [|c r IH]; simpl.
  - split; [constructor | done].
  - destruct (isWhiteSpace c) eqn:Hc.
    + rewrite IH. split; [by constructor | by inversion 1].
    + split; [done | inversion 1; congruence].
Qed.

Lemma trimStart_head (s : jsstring) c r :
  trimStart s = c :: r → isWhiteSpace c = false.
Proof.
  induction s as [|d s IH]; simpl; [done|].
  destruct (isWhiteSpace d) eqn:Hd; [done|]. by intros [= <- _].
Qed.

Lemma trim_nil_blank (s : jsstring) : trim s = [] ↔ blank s.
Proof.
  unfold trim, trimEnd. split.
  - intros H. apply (f_equal (@rev N)) in H. rewrite rev_involutive in H.
    simpl in H. apply trimStart_nil_blank in H. unfold blank in H.
    apply trimStart_nil_blank.
    destruct (trimStart s) as [|c r] eqn:Hs; [done|].
    apply trimStart_head in Hs.
    assert (isWhiteSpace c = true); [|congruence].
    rewrite Forall_forall in H. apply H. apply list_elem_of_In.
    apply in_rev. rewrite rev_involutive. by left.
  - intros H. apply trimStart_nil_blank in H. by rewrite H.
Qed.

Lemma truthy_trim_blank (s : jsstring) : truthy (trim s) = false ↔ blank s.
Proof.
  rewrite <- trim_nil_blank. unfold truthy. by destruct (trim s).
Qed.

Lemma truthy_trim_not_blank (s : jsstring) :
  truthy (trim s) = true ↔ ¬ blank s.
Proof.
  rewrite <- truthy_trim_blank. by destruct (truthy (trim s)).
Qed.

End Trim.

(** ** Equations of the two functions *)

Lemma sendMessage_blank i c a :
  JsString.blank i → sendMessage i c a = (a, Normal None).
Proof.
  intros H. apply truthy_trim_blank in H. unfold sendMessage. by rewrite H.
Qed.

Lemma sendMessage_not_blank i c a :
  ¬ JsString.blank i →
  sendMessage i c a =
    ({| messages := messages a ++ [userMessage i c]; inputMessage := [];
        isLoading := true; openaiStatus := openaiStatus a |},
     Normal (Some (chatRequest i))).
Proof.
  intros H. apply truthy_trim_not_blank in H. unfold sendMessage.
  by rewrite H.
Qed.

Lemma sendMessage_settled_eq o c a :
  sendMessage_settled o c a =
    ({| messages := messages a ++ [settled_entry o c];
        inputMessage := inputMessage a; isLoading := false;
        openaiStatus := openaiStatus a |}, Normal ()).
Proof.
  destruct o as [|[] [data|]]; try reflexivity.
  destruct data; reflexivity.
Qed.

Lemma checkOpenAIStatus_settled_eq o a :
  checkOpenAIStatus_settled o a =
    ({| messages := messages a; inputMessage := inputMessage a;
        isLoading := isLoading a; openaiStatus := status_of o |}, Normal ()).
Proof.
  destruct o as [|[] [data|]]; try reflexivity.
  destruct data; try reflexivity;
    unfold checkOpenAIStatus_settled, try_catch, bind, status_of; simpl;
    match goal with |- context [truthy ?v] => by destruct (truthy v) end.
Qed.

Lemma handleKeyPress_eq k shiftKey i c a :
  handleKeyPress k shiftKey i c a =
    if bool_decide (k = js "Enter") && negb shiftKey
    then sendMessage i c a else (a, Normal None).
Proof.
  unfold handleKeyPress.
  by destruct (bool_decide (k = js "Enter") && negb shiftKey).
Qed.

(** ** Equations of [step] *)

Lemma handled_nothing s : handled s (app s, Normal None) = s.
Proof. destruct s. unfold handled. simpl. by rewrite app_nil_r. Qed.

Lemma handled_sendMessage s c :
  handled s (sendMessage (inputMessage (app s)) c (app s)) =
    if decide (JsString.blank (inputMessage (app s))) then s else sent s c.
Proof.
  case_decide as H.
  - rewrite sendMessage_blank by done. apply handled_nothing.
  - by rewrite sendMessage_not_blank.
Qed.

Lemma step_Change s v :
  step s (Change v) =
    if isLoading (app s) then None else
    Some {| app := {| messages := messages (app s); inputMessage := v;
                      isLoading := isLoading (app s);
                      openaiStatus := openaiStatus (app s) |};
            statusPending := statusPending s;
            chatPending := chatPending s |}.
Proof. reflexivity. Qed.

Lemma step_Click s c :
  step s (Click c) =
    if decide (JsString.blank (inputMessage (app s))) then None else
    if isLoading (app s) then None else Some (sent s c).
Proof.
  unfold step. cbn [render send_button_disabled].
  rewrite handled_sendMessage.
  case_decide as H.
  - apply truthy_trim_blank in H. by rewrite H.
  - apply truthy_trim_not_blank in H. by rewrite H.
Qed.

Lemma step_KeyPress s k shiftKey c :
  step s (KeyPress k shiftKey c) =
    if isLoading (app s) then None else
    if bool_decide (k = js "Enter") && negb shiftKey then
      if decide (JsString.blank (inputMessage (app s))) then Some s
      else Some (sent s c)
    else Some s.
Proof.
  unfold step. cbn [render textarea_disabled].
  rewrite handleKeyPress_eq.
  destruct (isLoading (app s)); [done|].
  destruct (bool_decide (k = js "Enter") && negb shiftKey).
  - rewrite handled_sendMessage. by case_decide.
  - by rewrite handled_nothing.
Qed.

Lemma step_StatusSettled s o :
  step s (StatusSettled o) =
    if statusPending s then
      Some {| app := {| messages := messages (app s);
                        inputMessage := inputMessage (app s);
                        isLoading := isLoading (app s);
                        openaiStatus := status_of o |};
              statusPending := false;
              chatPending := chatPending s |}
    else None.
Proof. unfold step. by rewrite checkOpenAIStatus_settled_eq. Qed.

Lemma step_ChatSettled s o c :
  step s (ChatSettled o c) =
    match chatPending s with
    | [] => None
    | _ :: _ => Some (settled s o c)
    end.
Proof.
  unfold step, settled. rewrite sendMessage_settled_eq.
  by destruct (chatPending s).
Qed.

(** Case analysis of a step, one goal per way the state can change. *)
Ltac step_cases H :=
  match type of H with
  | step ?s ?e = Some ?s' =>
    destruct e as [v|c|k sh c|o|o c];
    [ rewrite step_Change in H
    | rewrite step_Click in H
    | rewrite step_KeyPress in H
    | rewrite step_StatusSettled in H
    | rewrite step_ChatSettled in H ];
    repeat (case_decide || case_match); simplify_eq
  end.

(** ** Invariants of the running component *)

Lemma reachable_consistent s : reachable s → consistent s.
Proof.
  induction 1 as [c|s e s' _ IH H]; [by left|].
  unfold consistent in *.
  destruct IH as [[Hl Hp]|(Hl & Hi & r & Hp)];
    step_cases H; simpl in *; rewrite ?Hp in *; simplify_eq; simpl;
    try congruence; eauto 8.
  left. split; [done|]. by replace (chatPending s) with [r].
Qed.

Lemma run_reachable s es s' : reachable s → run s es = Some s' → reachable s'.
Proof.
  revert s. induction es as [|e es IH]; simpl; intros s Hs H.
  - by simplify_eq.
  - destruct (step s e) eqn:He; [|done]. eapply IH; [|done].
    by eapply reach_step.
Qed.

(** While a request is in flight, nothing but its settling touches the
    message list, the input field, the loading flag or the request. *)
Lemma step_while_loading s e s' :
  isLoading (app s) = true → ¬ is_chat_settled e → step s e = Some s' →
  messages (app s') = messages (app s)
  ∧ inputMessage (app s') = inputMessage (app s)
  ∧ isLoading (app s') = true
  ∧ chatPending s' = chatPending s.
Proof.
  intros Hl He H. step_cases H; simpl in *; try congruence; tauto.
Qed.

Lemma run_while_loading s es s' :
  isLoading (app s) = true → Forall (λ e, ¬ is_chat_settled e) es →
  run s es = Some s' →
  messages (app s') = messages (app s)
  ∧ inputMessage (app s') = inputMessage (app s)
  ∧ isLoading (app s') = true
  ∧ chatPending s' = chatPending s.
Proof.
  intros Hl Hes. revert s Hl.
  induction Hes as [|e es He _ IH]; simpl; intros s Hl H.
  - by simplify_eq.
  - destruct (step s e) as [s1|] eqn:Hstep; [|done].
    destruct (step_while_loading _ _ _ Hl He Hstep) as (Hm & Hi & Hl1 & Hp).
    destruct (IH _ Hl1 H) as (? & ? & ? & ?). repeat split; congruence.
Qed.

(** A send goes through in a reachable state whose input is not blank. *)
Lemma step_send s e c :
  reachable s → is_send e c → ¬ JsString.blank (inputMessage (app s)) →
  step s e = Some (sent s c).
Proof.
  intros Hs He Hi.
  assert (isLoading (app s) = false) as Hl.
  { destruct (reachable_consistent _ Hs) as [[? _]|(_ & Hnil & _)]; [done|].
    rewrite Hnil in Hi. destruct Hi. constructor. }
  destruct He as [-> | ->].
  - rewrite step_Click, Hl. by case_decide.
  - rewrite step_KeyPress, Hl. simpl. by case_decide.
Qed.

(** Without a change event the input field, once empty, stays empty. *)
Lemma step_input_stays_empty s e s' :
  inputMessage (app s) = [] → ¬ is_change e → step s e = Some s' →
  inputMessage (app s') = [].
Proof. intros Hi He H. step_cases H; simpl in *; tauto. Qed.

Lemma run_input_stays_empty s es s' :
  inputMessage (app s) = [] → Forall (λ e, ¬ is_change e) es →
  run s es = Some s' → inputMessage (app s') = [].
Proof.
  intros Hi Hes. revert s Hi.
  induction Hes as [|e es He _ IH]; simpl; intros s Hi H.
  - by simplify_eq.
  - destruct (step s e) as [s1|] eqn:Hstep; [|done].
    eapply IH; [|done]. by eapply step_input_stays_empty.
Qed.

(** ** Sending *)

(** C1.  A send of a text that is not blank appends exactly the user entry
    and issues one request.  Until that request settles the message list
    does not change; when it settles, exactly one entry is appended, the
    reply entry if a reply was obtained and the fixed error entry
    otherwise, and nothing is left that could append another. *)
Theorem send_appends_user_entry_then_one_outcome s e c :
  reachable s → is_send e c → ¬ JsString.blank (inputMessage (app s)) →
  ∃ s1,
    step s e = Some s1
    ∧ messages (app s1) =
        messages (app s) ++ [userMessage (inputMessage (app s)) c]
    ∧ chatPending s1 = [chatRequest (inputMessage (app s))]
    ∧ ∀ es s2,
        Forall (λ e', ¬ is_chat_settled e') es → run s1 es = Some s2 →
        messages (app s2) = messages (app s1)
        ∧ ∀ o c', ∃ s3,
            step s2 (ChatSettled o c') = Some s3
            ∧ messages (app s3) =
                messages (app s1) ++
                [match reply_of o with
                 | Some reply => botMessage reply c'
                 | None => errorMessage c'
                 end]
            ∧ ∀ o' c'', step s3 (ChatSettled o' c'') = None.
Proof.
  intros Hs He Hi. exists (sent s c).
  assert (chatPending s = []) as Hp.
  { destruct (reachable_consistent _ Hs) as [[_ ?]|(_ & Hnil & _)]; [done|].
    rewrite Hnil in Hi. destruct Hi. constructor. }
  split; [by apply step_send|]. split; [done|].
  split; [simpl; by rewrite Hp|].
  intros es s2 Hes Hrun.
  destruct (run_while_loading (sent s c) es s2 eq_refl Hes Hrun)
    as (Hm & _ & _ & Hp2).
  split; [done|]. intros o c'. exists (settled s2 o c').
  split; [|split].
  - rewrite step_ChatSettled, Hp2. simpl. by rewrite Hp.
  - simpl. by rewrite Hm.
  - intros o' c''. rewrite step_ChatSettled. simpl. rewrite Hp2. simpl.
    by rewrite Hp.
Qed.

(** C2.  With a blank input [sendMessage] returns at once: the state is
    unchanged and no request is issued; the send button is disabled, so a
    click does not fire, and a key press leaves the component as it is. *)
Theorem blank_input_sends_nothing s key shiftKey c :
  JsString.blank (inputMessage (app s)) →
  sendMessage (inputMessage (app s)) c (app s) = (app s, Normal None)
  ∧ send_button_disabled (render (app s)) = true
  ∧ step s (Click c) = None
  ∧ ∀ s', step s (KeyPress key shiftKey c) = Some s' → s' = s.
Proof.
  intros Hb. split; [by apply sendMessage_blank|].
  split; [simpl; apply truthy_trim_blank in Hb; by rewrite Hb|].
  split; [rewrite step_Click; by case_decide|].
  intros s'. rewrite step_KeyPress.
  repeat (case_match || case_decide); congruence.
Qed.

(** ** The status indicator *)

(** C3.  When [/openai-status] answers OK with a body whose
    [openai_available] is [false], the status becomes [not_configured] and
    the header shows the Basic Mode indicator and not the OpenAI one; and
    whatever the status, the two indicators are never shown together. *)
Theorem unavailable_shows_basic_mode_only s props :
  statusPending s = true →
  own_prop props (js "openai_available") = VBool false →
  (∃ s',
     step s (StatusSettled (Resolved true (Some (VObj props)))) = Some s'
     ∧ openaiStatus (app s') = js "not_configured"
     ∧ status (render (app s')) =
         [Span (js "status-dot") []; Text (js "Online"); basic_mode_indicator]
     ∧ basic_mode_indicator ∈ status (render (app s'))
     ∧ openai_indicator ∉ status (render (app s')))
  ∧ ∀ a, ¬ (openai_indicator ∈ status (render a)
            ∧ basic_mode_indicator ∈ status (render a)).
Proof.
  intros Hp Hprop. split.
  - assert (status_of (Resolved true (Some (VObj props)))
            = js "not_configured") as Hst.
    { unfold status_of, member. by rewrite Hprop. }
    rewrite step_StatusSettled, Hp, Hst. eexists. split; [done|].
    split; [done|]. split; [done|].
    split; [by apply (bool_decide_unpack _)|].
    by apply (bool_decide_eq_false_1 _).
  - intros a [Ho Hb]. unfold render in *. cbn [status] in *.
    destruct (bool_decide_reflect (openaiStatus a = js "connected")) as [E1|_];
      destruct (bool_decide_reflect (openaiStatus a = js "not_configured"))
        as [E2|_].
    + rewrite E1 in E2. discriminate.
    + by apply (bool_decide_eq_false_1 _) in Hb.
    + by apply (bool_decide_eq_false_1 _) in Ho.
    + by apply (bool_decide_eq_false_1 _) in Ho.
Qed.

(** ** Failure of a chat request *)

(** C4.  When the [fetch] of a chat request rejects, or resolves to a
    response that is not OK, the one entry appended carries the fixed
    apology text, whichever of the two happened, and the requests in
    flight only lose the settled one: nothing is issued again. *)
Theorem failure_appends_the_fixed_apology s o c :
  chatPending s ≠ [] →
  o = Rejected ∨ (∃ json, o = Resolved false json) →
  ∃ s',
    step s (ChatSettled o c) = Some s'
    ∧ messages (app s') =
        messages (app s) ++
        [ {| id := now c + 1;
             text := VStr (js "ขออภัยครับ เกิดข้อผิดพลาดในการเชื่อมต่อ กรุณาลองใหม่อีกครั้ง");
             isUser := None;
             timestamp := localeTime c |} ]
    ∧ chatPending s' = tail (chatPending s).
Proof.
  intros Hp Ho. exists (settled s o c).
  rewrite step_ChatSettled. split; [by destruct (chatPending s)|].
  split; [|done]. by destruct Ho as [-> | [json ->]].
Qed.

(** C8.  The entry appended when no reply was obtained has no [isUser]
    field; it is rendered with the class and the avatar of a bot entry,
    the same as those of any reply. *)
Theorem error_entry_has_no_isUser_and_renders_as_bot o c a :
  reply_of o = None →
  ∃ m,
    messages (sendMessage_settled o c a).1 = messages a ++ [m]
    ∧ isUser m = None
    ∧ className (render_message m) = js "message bot-message"
    ∧ message_avatar (render_message m) = js "🤖"
    ∧ ∀ reply c',
        className (render_message (botMessage reply c')) =
          className (render_message m)
        ∧ message_avatar (render_message (botMessage reply c')) =
            message_avatar (render_message m).
Proof.
  intros Ho. exists (errorMessage c). rewrite sendMessage_settled_eq.
  unfold settled_entry. rewrite Ho. done.
Qed.

(** ** The loading flag *)



(** ** The input field *)

(** C9.  A send of a text that is not blank empties the input field at
    once, while the request is still in flight.  The field is still empty
    after any events up to the settling of the request, and after any
    events at all, the settling with a failure included, as long as the
    user does not type; while the request is in flight the user cannot. *)
Theorem send_clears_the_input_for_good s e c :
  reachable s → is_send e c → ¬ JsString.blank (inputMessage (app s)) →
  ∃ s1,
    step s e = Some s1
    ∧ inputMessage (app s1) = []
    ∧ chatPending s1 ≠ []
    ∧ (∀ es s2,
         Forall (λ e', ¬ is_chat_settled e') es → run s1 es = Some s2 →
         inputMessage (app s2) = [] ∧ ∀ v, step s2 (Change v) = None)
    ∧ (∀ es s2,
         Forall (λ e', ¬ is_change e') es → run s1 es = Some s2 →
         inputMessage (app s2) = []).
Proof.
  intros Hs He Hi. exists (sent s c).
  split; [by apply step_send|]. split; [done|].
  split; [simpl; by destruct (chatPending s)|]. split.
  - intros es s2 Hes Hrun.
    destruct (run_while_loading (sent s c) es s2 eq_refl Hes Hrun)
      as (_ & Hi2 & Hl2 & _).
    split; [done|]. intros v. by rewrite step_Change, Hl2.
  - intros es s2 Hes Hrun. by eapply (run_input_stays_empty (sent s c)).
Qed.

(** ** The status flag *)

Lemma status_of_values o :
  status_of o ∈ [js "checking"; js "connected"; js "not_configured"; js "error"].
Proof.
  assert (∀ v : jsvalue,
            (if truthy v then js "connected" else js "not_configured")
            ∈ [js "checking"; js "connected"; js "not_configured"; js "error"])
    as Hv.
  { intros v. destruct (truthy v); by apply (bool_decide_unpack _). }
  destruct o as [|[] [data|]]; try by apply (bool_decide_unpack _).
  destruct data; try apply Hv; by apply (bool_decide_unpack _).
Qed.

Lemma reachable_status s :
  reachable s →
  openaiStatus (app s)
    ∈ [js "checking"; js "connected"; js "not_configured"; js "error"]
  ∧ (statusPending s = true → openaiStatus (app s) = js "checking").
Proof.
  induction 1 as [c|s e s' _ [IH1 IH2] H].
  - split; [by apply (bool_decide_unpack _)|done].
  - step_cases H; simpl in *; try tauto.
    split; [apply status_of_values|done].
Qed.

Lemma run_status_settled_count s es s' :
  run s es = Some s' →
  (length (filter is_status_settled es) ≤ if statusPending s then 1 else 0)%nat.
Proof.
  revert s. induction es as [|e es IH]; simpl; intros s H.
  - destruct (statusPending s); lia.
  - destruct (step s e) as [s1|] eqn:Hstep; [|done].
    specialize (IH _ H). step_cases Hstep; simpl in *;
      rewrite ?filter_cons; simpl; try congruence; lia.
Qed.

(** C7.  The status flag starts as [checking], with the one status
    request of the mount in flight.  In every reachable state it is one of
    the four values, and it is still [checking] while that request is in
    flight.  A step changes it only by settling that request, which sets
    it from the response; once settled, no step changes it again, and no
    run settles a status request more than once. *)
Theorem status_flag_is_set_once_from_the_status_request s :
  reachable s →
  (∀ c, openaiStatus (app (mounted c)) = js "checking"
        ∧ statusPending (mounted c) = true)
  ∧ openaiStatus (app s)
      ∈ [js "checking"; js "connected"; js "not_configured"; js "error"]
  ∧ (statusPending s = true → openaiStatus (app s) = js "checking")
  ∧ (∀ e s', step s e = Some s' →
       (openaiStatus (app s') ≠ openaiStatus (app s) →
        ∃ o, e = StatusSettled o)
       ∧ (∀ o, e = StatusSettled o →
          statusPending s = true ∧ statusPending s' = false
          ∧ openaiStatus (app s') = status_of o)
       ∧ (statusPending s = false →
          statusPending s' = false
          ∧ openaiStatus (app s') = openaiStatus (app s)))
  ∧ (∀ c es s', run (mounted c) es = Some s' →
       (length (filter is_status_settled es) ≤ 1)%nat).
Proof.
  intros Hs. split; [done|].
  destruct (reachable_status _ Hs) as [Hv Hc]. split; [done|]. split; [done|].
  split.
  - intros e s' H. step_cases H; simpl in *;
      (split; [|split]); try done; try congruence; eauto.
    by intros o0 [= <-].
  - intros c es s' H. by apply run_status_settled_count in H.
Qed.

(** ** The message list *)

Lemma step_messages s e s' :
  step s e = Some s' →
  messages (app s') = messages (app s)
  ∨ ∃ m, messages (app s') = messages (app s) ++ [m].
Proof. intros H. step_cases H; simpl; eauto. Qed.

Lemma run_messages_prefix s es s' :
  run s es = Some s' → messages (app s) `prefix_of` messages (app s').
Proof.
  revert s. induction es as [|e es IH]; simpl; intros s H.
  - by simplify_eq.
  - destruct (step s e) as [s1|] eqn:Hstep; [|done].
    etrans; [|by apply IH].
    destruct (step_messages _ _ _ Hstep) as [-> | [m ->]]; [done|].
    by apply prefix_app_r.
Qed.

(** C10.  In every reachable state the message list begins with the
    greeting, whose id is 1.  A step leaves the list as it is or appends
    one entry at its end, so the list of an earlier state is a prefix of
    that of any later one; the rows are rendered from the list in its
    order, one row per entry. *)
Theorem message_list_begins_with_greeting_and_only_grows s :
  reachable s →
  (∃ c rest,
     messages (app s) =
       {| id := 1;
          text := VStr (js "สวัสดีครับ! ยินดีต้อนรับสู่ AI Chatbot ของเรา 😊");
          isUser := Some false;
          timestamp := localeTime c |} :: rest)
  ∧ (∀ e s', step s e = Some s' →
       messages (app s') = messages (app s)
       ∨ ∃ m, messages (app s') = messages (app s) ++ [m])
  ∧ (∀ es s', run s es = Some s' →
       messages (app s) `prefix_of` messages (app s'))
  ∧ (∀ i, chat_messages (render (app s)) !! i =
          render_message <$> messages (app s) !! i).
Proof.
  intros Hs. split; [|split; [|split]].
  - induction Hs as [c|s e s' _ IH H]; [by exists c, []|].
    destruct IH as (c & rest & IH).
    destruct (step_messages _ _ _ H) as [-> | [m ->]]; [by eauto|].
    rewrite IH. by exists c, (rest ++ [m]).
  - apply step_messages.
  - apply run_messages_prefix.
  - intros i. simpl. apply list_lookup_fmap.
Qed.

(** ** Message ids *)

Lemma id_settled_entry o c : id (settled_entry o c) = now c + 1.
Proof. unfold settled_entry. by destruct (reply_of o). Qed.

Lemma not_self_app {A} (l : list A) (x : A) : l ≠ l ++ [x].
Proof.
  intros H. apply (f_equal length) in H. rewrite length_app in H.
  simpl in H. lia.
Qed.

Lemma send_time_Click s c :
  send_time s (Click c) =
    if decide (JsString.blank (inputMessage (app s))) then None
    else Some (now c).
Proof.
  unfold send_time. case_decide as Hb.
  - apply truthy_trim_blank in Hb. by rewrite Hb.
  - apply truthy_trim_not_blank in Hb. by rewrite Hb.
Qed.

Lemma send_time_KeyPress s k shiftKey c :
  send_time s (KeyPress k shiftKey c) =
    if bool_decide (k = js "Enter") && negb shiftKey then
      if decide (JsString.blank (inputMessage (app s))) then None
      else Some (now c)
    else None.
Proof.
  unfold send_time.
  destruct (bool_decide (k = js "Enter") && negb shiftKey); [|done].
  cbn [andb]. case_decide as Hb.
  - apply truthy_trim_blank in Hb. by rewrite Hb.
  - apply truthy_trim_not_blank in Hb. by rewrite Hb.
Qed.

Lemma step_ids s e s' last :
  reachable s → ids_below last s → well_spaced last s e →
  step s e = Some s' →
  ids_below (advance last s e) s'
  ∧ ∀ m, messages (app s') = messages (app s) ++ [m] →
      Forall (λ x, id x < id m) (messages (app s))
      ∧ ((∃ c, is_send e c ∧ id m = now c)
         ∨ (∃ o c, e = ChatSettled o c ∧ id m = now c + 1)).
Proof.
  intros Hs Hb Ht H. unfold ids_below, advance, well_spaced in *.
  pose proof (reachable_consistent _ Hs) as Hc.
  assert (∀ (P Q : Message → Prop) l,
            (∀ x, P x → Q x) → Forall P l → Forall Q l) as Hmono.
  { intros P Q l HPQ HP. by eapply Forall_impl. }
  destruct e as [v|c|k sh c|o|o c].
  - rewrite step_Change in H. destruct (isLoading (app s)) eqn:Hl; [done|].
    simplify_eq. cbn [send_time settle_time app isLoading messages].
    split; [done|]. intros m Hm. by apply not_self_app in Hm.
  - rewrite send_time_Click in Ht |- *. rewrite step_Click in H.
    case_decide; [done|].
    destruct (isLoading (app s)) eqn:Hl; [done|]. simplify_eq.
    cbn [sent app isLoading messages]. split.
    + apply Forall_app. split; [|by repeat constructor].
      eapply Hmono; [|exact Hb]. simpl. lia.
    + intros m Hm. apply app_inj_tail in Hm as [_ <-]. split.
      * eapply Hmono; [|exact Hb]. simpl. lia.
      * left. exists c. split; [by left|done].
  - rewrite send_time_KeyPress in Ht |- *. rewrite step_KeyPress in H.
    destruct (isLoading (app s)) eqn:Hl; [done|].
    destruct (bool_decide (k = js "Enter") && negb sh) eqn:Hk;
      [case_decide|]; simplify_eq; cbn [settle_time].
    + rewrite Hl. split; [done|].
      intros m Hm. by apply not_self_app in Hm.
    + apply andb_true_iff in Hk as [Hk Hsh].
      apply bool_decide_eq_true_1 in Hk. apply negb_true_iff in Hsh.
      subst k sh. cbn [sent app isLoading messages]. split.
      * apply Forall_app. split; [|by repeat constructor].
        eapply Hmono; [|exact Hb]. simpl. lia.
      * intros m Hm. apply app_inj_tail in Hm as [_ <-]. split.
        -- eapply Hmono; [|exact Hb]. simpl. lia.
        -- left. exists c. split; [by right|done].
    + rewrite Hl. split; [done|].
      intros m Hm. by apply not_self_app in Hm.
  - rewrite step_StatusSettled in H. destruct (statusPending s); [|done].
    simplify_eq. cbn [send_time settle_time app isLoading messages].
    split; [done|]. intros m Hm. by apply not_self_app in Hm.
  - rewrite step_ChatSettled in H.
    destruct Hc as [[_ Hp]|(Hl & _ & r & Hp)]; rewrite Hp in H; [done|].
    simplify_eq. cbn [send_time settle_time settled app isLoading messages]
      in *.
    rewrite Hl in Hb. split.
    + apply Forall_app. split.
      * eapply Hmono; [|exact Hb]. simpl. lia.
      * repeat constructor. rewrite id_settled_entry. lia.
    + intros m Hm. apply app_inj_tail in Hm as [_ <-].
      rewrite id_settled_entry. split.
      * eapply Hmono; [|exact Hb]. simpl. lia.
      * right. by exists o, c.
Qed.

Lemma spaced_snoc last s es e s1 :
  spaced last s (es ++ [e]) → run s es = Some s1 →
  spaced last s es ∧ well_spaced (last_reading last s es) s1 e.
Proof.
  revert last s. induction es as [|e' es IH]; intros last s Hsp Hrun.
  - simpl in *. simplify_eq. by destruct Hsp.
  - change ((e' :: es) ++ [e]) with (e' :: (es ++ [e])) in Hsp.
    cbn [spaced run last_reading] in *.
    destruct (step s e') as [s'|]; [|done].
    destruct Hsp as [Ht Hsp]. destruct (IH _ _ Hsp Hrun). by repeat split.
Qed.

Lemma run_ids_below s es s' last :
  reachable s → ids_below last s → spaced last s es → run s es = Some s' →
  ids_below (last_reading last s es) s'.
Proof.
  revert s last. induction es as [|e es IH]; intros s last Hs Hb Hsp H.
  - simpl in *. by simplify_eq.
  - cbn [spaced run last_reading] in *.
    destruct (step s e) as [s1|] eqn:Hstep; [|done].
    destruct Hsp as [Ht Hsp]. eapply IH; [| |exact Hsp|exact H].
    + by eapply reach_step.
    + by apply (step_ids s e s1 last).
Qed.

(** C6, as amended.  When the clock does not run backwards and every
    send reads a time more than one millisecond after the reading before
    it (more than 1 for the first send), the entry a step appends has an
    id strictly greater than every id already in the list; that id is the
    reading of a send, or the reading plus one of a settling.  Only the
    readings the code makes count: a click or a key press that sends
    nothing reads no time. *)
Theorem appended_id_exceeds_earlier_ids_when_spaced c0 es s e s' m :
  spaced 0 (mounted c0) (es ++ [e]) →
  run (mounted c0) es = Some s →
  step s e = Some s' →
  messages (app s') = messages (app s) ++ [m] →
  Forall (λ x, id x < id m) (messages (app s))
  ∧ ((∃ c, is_send e c ∧ id m = now c)
     ∨ (∃ o c, e = ChatSettled o c ∧ id m = now c + 1)).
Proof.
  intros Hsp Hrun Hstep Hm.
  destruct (spaced_snoc _ _ _ _ _ Hsp Hrun) as [Hes He].
  assert (reachable s) as Hs.
  { eapply run_reachable; [apply reach_mounted|exact Hrun]. }
  assert (ids_below (last_reading 0 (mounted c0) es) s) as Hb.
  { eapply run_ids_below; [apply reach_mounted| |exact Hes|exact Hrun].
    unfold ids_below. simpl. by repeat constructor. }
  by apply (step_ids s e s' _ Hs Hb He Hstep).
Qed.

(** ** Concrete runs *)

Lemma typed_reachable : reachable typed.
Proof.
  apply (reach_step (mounted morning) (Change (js "hi")));
    [apply reach_mounted|reflexivity].
Qed.

Lemma waiting_reachable : reachable waiting.
Proof.
  apply (reach_step typed (Click morning)); [apply typed_reachable|].
  by vm_compute.
Qed.

Lemma hi_not_blank : ¬ JsString.blank (js "hi").
Proof. by apply (bool_decide_eq_false_1 _). Qed.

Example apology_code_units :
  apology_text =
    [3586; 3629; 3629; 3616; 3633; 3618; 3588; 3619; 3633; 3610; 32; 3648;
     3585; 3636; 3604; 3586; 3657; 3629; 3612; 3636; 3604; 3614; 3621; 3634;
     3604; 3651; 3609; 3585; 3634; 3619; 3648; 3594; 3639; 3656; 3629; 3617;
     3605; 3656; 3629; 32; 3585; 3619; 3640; 3603; 3634; 3621; 3629; 3591;
     3651; 3627; 3617; 3656; 3629; 3637; 3585; 3588; 3619; 3633; 3657;
     3591]%N.
Proof. reflexivity. Qed.

Example failed_exchange :
  option_map (λ s, (map id (messages (app s)), isLoading (app s),
                    inputMessage (app s), chatPending s))
    (run (mounted morning)
         [Change (js "hi"); Click morning; ChatSettled Rejected morning])
  = Some ([1; 1700000000000; 1700000000001], false, [], []).
Proof. reflexivity. Qed.

Lemma send_appends_user_entry_then_one_outcome_witness :
  reachable typed
  ∧ is_send (Click morning) morning
  ∧ ¬ JsString.blank (inputMessage (app typed))
  ∧ ∃ s1,
      step typed (Click morning) = Some s1
      ∧ messages (app s1) = messages (app typed) ++ [userMessage (js "hi") morning]
      ∧ chatPending s1 = [chatRequest (js "hi")].
Proof.
  split; [apply typed_reachable|]. split; [by left|].
  split; [apply hi_not_blank|].
  destruct (send_appends_user_entry_then_one_outcome typed (Click morning)
              morning typed_reachable (or_introl eq_refl) hi_not_blank)
    as (s1 & H1 & H2 & H3 & _).
  by exists s1.
Defined.

Lemma blank_input_sends_nothing_witness :
  JsString.blank (js "  ")
  ∧ sendMessage (js "  ") morning
      {| messages := []; inputMessage := js "  "; isLoading := false;
         openaiStatus := js "checking" |}
    = ({| messages := []; inputMessage := js "  "; isLoading := false;
          openaiStatus := js "checking" |}, Normal None).
Proof.
  assert (JsString.blank (js "  ")) as Hb by (by repeat constructor).
  split; [exact Hb|].
  exact (proj1 (blank_input_sends_nothing
    {| app := {| messages := []; inputMessage := js "  "; isLoading := false;
                 openaiStatus := js "checking" |};
       statusPending := false; chatPending := [] |}
    (js "Enter") false morning Hb)).
Defined.

Lemma unavailable_shows_basic_mode_only_witness :
  statusPending (mounted morning) = true
  ∧ own_prop [(js "openai_available", VBool false)] (js "openai_available")
    = VBool false
  ∧ ∃ s',
      step (mounted morning)
        (StatusSettled
           (Resolved true (Some (VObj [(js "openai_available", VBool false)]))))
      = Some s'
      ∧ openaiStatus (app s') = js "not_configured".
Proof.
  split; [reflexivity|]. split; [reflexivity|].
  destruct (unavailable_shows_basic_mode_only (mounted morning)
              [(js "openai_available", VBool false)] eq_refl eq_refl)
    as [(s' & H1 & H2 & _) _].
  by exists s'.
Defined.

Lemma failure_appends_the_fixed_apology_witness :
  chatPending waiting ≠ []
  ∧ ∃ s',
      step waiting (ChatSettled Rejected a_millisecond_later) = Some s'
      ∧ chatPending s' = [].
Proof.
  assert (chatPending waiting ≠ []) as Hp by done.
  split; [exact Hp|].
  destruct (failure_appends_the_fixed_apology waiting Rejected
              a_millisecond_later Hp (or_introl eq_refl))
    as (s' & H1 & _ & H3).
  by exists s'.
Defined.



Lemma status_flag_is_set_once_from_the_status_request_witness :
  reachable typed
  ∧ openaiStatus (app typed)
      ∈ [js "checking"; js "connected"; js "not_configured"; js "error"].
Proof.
  split; [apply typed_reachable|].
  exact (proj1 (proj2 (status_flag_is_set_once_from_the_status_request typed
                         typed_reachable))).
Defined.

Lemma error_entry_has_no_isUser_and_renders_as_bot_witness :
  reply_of (Resolved false None) = None
  ∧ ∃ m,
      messages (sendMessage_settled (Resolved false None) morning
                  (app waiting)).1
      = messages (app waiting) ++ [m]
      ∧ isUser m = None.
Proof.
  split; [reflexivity|].
  destruct (error_entry_has_no_isUser_and_renders_as_bot (Resolved false None)
              morning (app waiting) eq_refl) as (m & H1 & H2 & _).
  by exists m.
Defined.

Lemma send_clears_the_input_for_good_witness :
  reachable typed
  ∧ is_send (KeyPress (js "Enter") false morning) morning
  ∧ ¬ JsString.blank (inputMessage (app typed))
  ∧ ∃ s1,
      step typed (KeyPress (js "Enter") false morning) = Some s1
      ∧ inputMessage (app s1) = [].
Proof.
  split; [apply typed_reachable|]. split; [by right|].
  split; [apply hi_not_blank|].
  destruct (send_clears_the_input_for_good typed
              (KeyPress (js "Enter") false morning) morning typed_reachable
              (or_intror eq_refl) hi_not_blank) as (s1 & H1 & H2 & _).
  by exists s1.
Defined.

Lemma message_list_begins_with_greeting_and_only_grows_witness :
  reachable waiting
  ∧ ∀ es s', run waiting es = Some s' →
      messages (app waiting) `prefix_of` messages (app s').
Proof.
  split; [apply waiting_reachable|].
  exact (proj1 (proj2 (proj2
    (message_list_begins_with_greeting_and_only_grows waiting
       waiting_reachable)))).
Defined.

Lemma appended_id_exceeds_earlier_ids_when_spaced_witness :
  spaced 0 (mounted morning) (exchange_then_blank_enter ++ [Click (reading 13)])
  ∧ ∃ s s' m,
      run (mounted morning) exchange_then_blank_enter = Some s
      ∧ step s (Click (reading 13)) = Some s'
      ∧ messages (app s') = messages (app s) ++ [m]
      ∧ map id (messages (app s)) = [1; 10; 11]
      ∧ id m = 13
      ∧ Forall (λ x, id x < id m) (messages (app s)).
Proof.
  assert (spaced 0 (mounted morning)
            (exchange_then_blank_enter ++ [Click (reading 13)])) as Hsp.
  { vm_compute. repeat split; done. }
  split; [exact Hsp|].
  eexists _, _, _.
  split; [reflexivity|]. split; [reflexivity|]. split; [reflexivity|].
  split; [reflexivity|]. split; [reflexivity|].
  exact (proj1 (appended_id_exceeds_earlier_ids_when_spaced morning
                  exchange_then_blank_enter _ (Click (reading 13)) _ _
                  Hsp eq_refl eq_refl eq_refl)).
Defined.

(** C6 as stated fails: the clock does not run backwards, the reply comes
    in the millisecond of the send and gets the id of that reading plus
    one, and the next send, one millisecond later, gets that id again. *)
Lemma appended_id_can_repeat_an_earlier_id :
  ∃ s s' m,
    nondecreasing 0 (mounted morning)
      [Change (js "a"); Click morning; ChatSettled hello_reply morning;
       Change (js "b"); Click a_millisecond_later]
    ∧ run (mounted morning)
        [Change (js "a"); Click morning; ChatSettled hello_reply morning;
         Change (js "b")] = Some s
    ∧ step s (Click a_millisecond_later) = Some s'
    ∧ messages (app s') = messages (app s) ++ [m]
    ∧ map id (messages (app s)) = [1; 1700000000000; 1700000000001]
    ∧ id m = 1700000000001
    ∧ ¬ Forall (λ x, id x < id m) (messages (app s)).
Proof.
  eexists _, _, _. split; [vm_compute; repeat split; done|].
  split; [reflexivity|]. split; [reflexivity|]. split; [reflexivity|].
  split; [reflexivity|]. split; [reflexivity|].
  by apply (bool_decide_eq_false_1 _).
Qed.

(** * Further properties of the component *)

(** ** Key presses *)

(** X1.  While no request is in flight, Enter without shift does what a
    click on the send button does whenever the button can be clicked, and
    any other key, or Enter with shift, leaves the component as it is. *)
Theorem plain_enter_is_a_click_other_keys_do_nothing s k shiftKey c :
  isLoading (app s) = false →
  (∀ s', step s (Click c) = Some s' →
         step s (KeyPress (js "Enter") false c) = Some s')
  ∧ (k ≠ js "Enter" ∨ shiftKey = true →
     handleKeyPress k shiftKey (inputMessage (app s)) c (app s)
       = (app s, Normal None)
     ∧ step s (KeyPress k shiftKey c) = Some s).
Proof.
  intros Hl. split.
  - intros s'. rewrite step_Click, step_KeyPress, Hl. simpl.
    by case_decide.
  - intros Hk.
    assert (bool_decide (k = js "Enter") && negb shiftKey = false) as Hb.
    { destruct Hk as [Hk | ->]; [|apply andb_false_r].
      by rewrite (bool_decide_eq_false_2 _ Hk). }
    rewrite handleKeyPress_eq, step_KeyPress, Hl, Hb. done.
Qed.

Lemma plain_enter_is_a_click_other_keys_do_nothing_witness :
  isLoading (app typed) = false
  ∧ step typed (KeyPress (js "Enter") true morning) = Some typed.
Proof.
  split; [reflexivity|].
  exact (proj2 (proj2 (plain_enter_is_a_click_other_keys_do_nothing typed
                         (js "Enter") true morning eq_refl)
                  (or_intror eq_refl))).
Defined.

(** ** Outcomes of a chat request *)

Lemma reply_of_None o :
  reply_of o = None ↔
  o = Rejected ∨ (∃ json, o = Resolved false json)
  ∨ (∃ json, o = Resolved true json ∧ unusable_body json).
Proof.
  unfold unusable_body. split.
  - destruct o as [|[] [data|]]; simpl; intros H; eauto 8.
    destruct data; simpl in H; try done; eauto 8.
  - intros [-> | [[json ->] | (json & -> & [-> | [-> | ->]])]]; done.
Qed.

(** X2.  The apology entry is what a settling appends exactly when the
    request was rejected, the response was not OK, or the response was OK
    but its body was not JSON or was [null]; in every other case the entry
    appended is not the apology. *)
Theorem apology_is_appended_exactly_on_failure o c a :
  messages (sendMessage_settled o c a).1 = messages a ++ [errorMessage c]
  ↔ o = Rejected ∨ (∃ json, o = Resolved false json)
    ∨ (∃ json, o = Resolved true json ∧ unusable_body json).
Proof.
  rewrite sendMessage_settled_eq, <- reply_of_None. simpl.
  unfold settled_entry. split.
  - intros H. apply app_inv_head in H. destruct (reply_of o); [|done].
    by injection H.
  - by intros ->.
Qed.

Lemma own_prop_missing props k : k ∉ props.*1 → own_prop props k = VUndefined.
Proof.
  induction props as [|[k' v] r IH]; simpl; [done|].
  rewrite not_elem_of_cons. intros [Hk Hr]. case_decide; [congruence|].
  by apply IH.
Qed.

(** X3.  An OK response whose body is an object without a [response] key
    is not a failure: the entry appended is a reply entry whose text is
    [undefined], rendered as a bot message, and the loading flag is
    reset. *)
Theorem ok_body_without_response_key_gives_undefined_reply props c a :
  js "response" ∉ props.*1 →
  ∃ m,
    messages (sendMessage_settled (Resolved true (Some (VObj props))) c a).1
      = messages a ++ [m]
    ∧ m = {| id := now c + 1; text := VUndefined; isUser := Some false;
             timestamp := localeTime c |}
    ∧ message_text (render_message m) = VUndefined
    ∧ className (render_message m) = js "message bot-message"
    ∧ isLoading (sendMessage_settled (Resolved true (Some (VObj props))) c a).1
      = false.
Proof.
  intros Hk. eexists. rewrite sendMessage_settled_eq. simpl.
  unfold settled_entry, reply_of, member, botMessage.
  rewrite (own_prop_missing _ _ Hk). done.
Qed.

Lemma ok_body_without_response_key_gives_undefined_reply_witness :
  (js "response" ∉ ([(js "reply", VStr (js "hello"))].*1))
  ∧ ∃ m,
      messages (sendMessage_settled
                  (Resolved true (Some (VObj [(js "reply", VStr (js "hello"))])))
                  morning (app waiting)).1
        = messages (app waiting) ++ [m]
      ∧ text m = VUndefined.
Proof.
  assert (js "response" ∉ ([(js "reply", VStr (js "hello"))].*1)) as Hk.
  { by apply (bool_decide_eq_false_1 _). }
  split; [exact Hk|].
  destruct (ok_body_without_response_key_gives_undefined_reply
              [(js "reply", VStr (js "hello"))] morning (app waiting) Hk)
    as (m & H1 & H2 & _).
  exists m. split; [exact H1|]. by rewrite H2.
Defined.

(** ** Outcomes of the status request *)

Lemma member_Thrown data k :
  member data k = Thrown ↔ data = VNull ∨ data = VUndefined.
Proof. destruct data; simpl; split; intros H; try done; eauto; by destruct H. Qed.

(** Splits the conjunctions, disjunctions and existentials among the
    hypotheses. *)
Ltac break_hyps :=
  repeat match goal with
         | H : ∃ _, _ |- _ => destruct H
         | H : _ ∧ _ |- _ => destruct H
         | H : _ ∨ _ |- _ => destruct H
         end.

(** X4.  The status request sets the flag by the truthiness of
    [openai_available], not by comparing it with [true]: the flag becomes
    [connected] exactly when the response is OK and the value read is
    truthy, [not_configured] exactly when it is OK and the value read is
    falsy (a missing key included), and [error] exactly when the request
    was rejected, the response was not OK, or its body was not JSON or
    was [null]. *)
Theorem status_follows_truthiness_of_the_flag o a :
  (openaiStatus (checkOpenAIStatus_settled o a).1 = js "connected"
   ↔ ∃ data v, o = Resolved true (Some data)
       ∧ member data (js "openai_available") = Normal v ∧ truthy v = true)
  ∧ (openaiStatus (checkOpenAIStatus_settled o a).1 = js "not_configured"
     ↔ ∃ data v, o = Resolved true (Some data)
         ∧ member data (js "openai_available") = Normal v ∧ truthy v = false)
  ∧ (openaiStatus (checkOpenAIStatus_settled o a).1 = js "error"
     ↔ o = Rejected ∨ (∃ json, o = Resolved false json)
       ∨ (∃ json, o = Resolved true json ∧ unusable_body json)).
Proof.
  rewrite checkOpenAIStatus_settled_eq. cbn [fst openaiStatus].
  unfold unusable_body.
  destruct o as [|[] [data|]]; cbn [status_of];
    [|destruct (member data (js "openai_available")) as [v|] eqn:Hm;
      [destruct (truthy v) eqn:Hv
      |apply member_Thrown in Hm as [-> | ->]]|..];
    (split; [|split]); split; intros H; break_hyps; simplify_eq;
    simpl in *; try done; try congruence; eauto 10.
Qed.

(** ** What the asynchronous functions leave alone *)

(** X5.  Neither asynchronous function ends by throwing, whatever the
    request does: every failure is caught.  The status check changes
    nothing but the status flag, and [sendMessage], before and after its
    request, never changes the status flag; its second part leaves the
    input field alone. *)
Theorem async_functions_never_throw o c i a :
  (checkOpenAIStatus_settled o a).2 = Normal ()
  ∧ (sendMessage_settled o c a).2 = Normal ()
  ∧ (sendMessage i c a).2 ≠ Thrown
  ∧ messages (checkOpenAIStatus_settled o a).1 = messages a
  ∧ inputMessage (checkOpenAIStatus_settled o a).1 = inputMessage a
  ∧ isLoading (checkOpenAIStatus_settled o a).1 = isLoading a
  ∧ openaiStatus (sendMessage i c a).1 = openaiStatus a
  ∧ openaiStatus (sendMessage_settled o c a).1 = openaiStatus a
  ∧ inputMessage (sendMessage_settled o c a).1 = inputMessage a.
Proof.
  rewrite checkOpenAIStatus_settled_eq, sendMessage_settled_eq.
  repeat split; try done.
  - destruct (decide (JsString.blank i)) as [Hb|Hb].
    + by rewrite sendMessage_blank.
    + by rewrite sendMessage_not_blank.
  - destruct (decide (JsString.blank i)) as [Hb|Hb].
    + by rewrite sendMessage_blank.
    + by rewrite sendMessage_not_blank.
Qed.

(** ** The header and the controls *)

(** X6.  The header shows the OpenAI indicator exactly when the status is
    [connected] and the Basic Mode indicator exactly when it is
    [not_configured]; for any other status, [checking] and [error]
    included, it shows the dot and the word Online only. *)
Theorem header_indicator_follows_status a :
  (openai_indicator ∈ status (render a) ↔ openaiStatus a = js "connected")
  ∧ (basic_mode_indicator ∈ status (render a)
     ↔ openaiStatus a = js "not_configured")
  ∧ (openaiStatus a ≠ js "connected" →
     openaiStatus a ≠ js "not_configured" →
     status (render a) = [Span (js "status-dot") []; Text (js "Online")]).
Proof.
  unfold render. cbn [status].
  destruct (bool_decide_reflect (openaiStatus a = js "connected")) as [E1|N1];
    destruct (bool_decide_reflect (openaiStatus a = js "not_configured"))
      as [E2|N2]; simpl.
  - rewrite E1 in E2. discriminate.
  - split; [|split]; [split| |done].
    + done.
    + intros _. by apply (bool_decide_unpack _).
    + split; [|done]. intros H. by apply (bool_decide_eq_false_1 _) in H.
  - split; [|split]; [| |done].
    + split; [|done]. intros H. by apply (bool_decide_eq_false_1 _) in H.
    + split; [done|]. intros _. by apply (bool_decide_unpack _).
  - split; [|split]; [| |done].
    + split; [|done]. intros H. by apply (bool_decide_eq_false_1 _) in H.
    + split; [|done]. intros H. by apply (bool_decide_eq_false_1 _) in H.
Qed.

(** X7.  The send button can be clicked exactly when the input is not
    blank and no request is in flight, and a click then goes through. *)
Theorem send_button_enabled_iff s c :
  (send_button_disabled (render (app s)) = false
   ↔ ¬ JsString.blank (inputMessage (app s)) ∧ isLoading (app s) = false)
  ∧ ((∃ s', step s (Click c) = Some s')
     ↔ ¬ JsString.blank (inputMessage (app s)) ∧ isLoading (app s) = false).
Proof.
  split.
  - cbn [render send_button_disabled].
    rewrite orb_false_iff, negb_false_iff. by rewrite truthy_trim_not_blank.
  - rewrite step_Click. case_decide as Hb.
    + split; [by intros [? ?]|]. by intros [? _].
    + destruct (isLoading (app s)).
      * split; [by intros [? ?]|]. by intros [_ ?].
      * split; [done|]. eauto.
Qed.

(** X8.  In a reachable state at most one chat request is in flight, and
    while one is, no click, key press or edit can occur: a second send
    cannot start before the first has settled. *)
Theorem at_most_one_chat_request_in_flight s :
  reachable s →
  (length (chatPending s) ≤ 1)%nat
  ∧ (chatPending s ≠ [] →
     ∀ c k shiftKey v,
       step s (Click c) = None
       ∧ step s (KeyPress k shiftKey c) = None
       ∧ step s (Change v) = None).
Proof.
  intros Hs.
  destruct (reachable_consistent _ Hs) as [[Hl Hp]|(Hl & Hi & r & Hp)].
  - rewrite Hp. split; [simpl; lia|done].
  - rewrite Hp. split; [simpl; lia|]. intros _ c k shiftKey v.
    rewrite step_Click, step_KeyPress, step_Change, Hl.
    split; [by case_decide|done].
Qed.

Lemma at_most_one_chat_request_in_flight_witness :
  reachable waiting
  ∧ (length (chatPending waiting) ≤ 1)%nat
  ∧ step waiting (Click a_millisecond_later) = None.
Proof.
  split; [apply waiting_reachable|].
  destruct (at_most_one_chat_request_in_flight waiting waiting_reachable)
    as [H1 H2].
  split; [exact H1|].
  assert (chatPending waiting ≠ []) as Hp by done.
  exact (proj1 (H2 Hp a_millisecond_later (js "a") false (js "x"))).
Defined.

(** ** The shape of the conversation *)

Lemma alternates_snoc b l m :
  alternates b (l ++ [m]) =
    alternates b l
    && Bool.eqb (isUser_truthy m) (xorb b (Nat.odd (length l))).
Proof.
  revert b. induction l as [|x l IH]; intros b.
  - simpl. by destruct b, (isUser_truthy m).
  - simpl. rewrite IH, Nat.odd_succ, <- Nat.negb_odd.
    destruct (Bool.eqb (isUser_truthy x) b), (alternates (negb b) l),
      b, (Nat.odd (length l)), (isUser_truthy m); done.
Qed.

Lemma isUser_truthy_settled_entry o c : isUser_truthy (settled_entry o c) = false.
Proof. unfold settled_entry. by destruct (reply_of o). Qed.

(** X9.  In every reachable state the entries after the greeting take
    turns, a user entry first and then a reply or error entry, and the
    last of them is a user entry exactly while a request is in flight (the
    number of entries after the greeting is odd exactly then). *)
Theorem conversation_alternates s :
  reachable s →
  ∃ g rest,
    messages (app s) = g :: rest
    ∧ alternates true rest = true
    ∧ isLoading (app s) = Nat.odd (length rest).
Proof.
  induction 1 as [c|s e s' Hs (g & rest & Hm & Ha & Hl) H].
  - by exists (List.hd (userMessage [] c) (messages (initial c))), [].
  - assert (∀ c, isLoading (app s) = false →
              ∃ g' rest',
                messages (app (sent s c)) = g' :: rest'
                ∧ alternates true rest' = true
                ∧ isLoading (app (sent s c)) = Nat.odd (length rest'))
      as Hsent.
    { intros c Hload. rewrite Hload in Hl.
      exists g, (rest ++ [userMessage (inputMessage (app s)) c]).
      simpl. rewrite Hm, alternates_snoc, Ha, length_app, <- Hl. simpl.
      rewrite Nat.add_1_r, Nat.odd_succ, <- Nat.negb_odd, <- Hl. done. }
    destruct e as [v|c|k sh c|o|o c].
    + rewrite step_Change in H. destruct (isLoading (app s)); [done|].
      simplify_eq. by exists g, rest.
    + rewrite step_Click in H. case_decide; [done|].
      destruct (isLoading (app s)) eqn:Hload; [done|]. simplify_eq.
      by apply Hsent.
    + rewrite step_KeyPress in H.
      destruct (isLoading (app s)) eqn:Hload; [done|].
      destruct (bool_decide (k = js "Enter") && negb sh);
        [case_decide|]; simplify_eq; try by (exists g, rest; rewrite ?Hload).
      by apply Hsent.
    + rewrite step_StatusSettled in H. destruct (statusPending s); [|done].
      simplify_eq. by exists g, rest.
    + rewrite step_ChatSettled in H.
      destruct (reachable_consistent _ Hs) as [[_ Hp]|(Hload & _ & r & Hp)];
        rewrite Hp in H; [done|]. simplify_eq.
      exists g, (rest ++ [settled_entry o c]). simpl.
      rewrite Hm, alternates_snoc, Ha, length_app, isUser_truthy_settled_entry.
      rewrite Hload in Hl. simpl.
      rewrite Nat.add_1_r, Nat.odd_succ, <- Nat.negb_odd, <- Hl. done.
Qed.

Lemma conversation_alternates_witness :
  reachable waiting
  ∧ ∃ g rest,
      messages (app waiting) = g :: rest
      ∧ alternates true rest = true
      ∧ isLoading (app waiting) = Nat.odd (length rest).
Proof.
  split; [apply waiting_reachable|].
  exact (conversation_alternates waiting waiting_reachable).
Defined.

(** ** Ids within one exchange, and row keys *)

Lemma nondecreasing_snoc last s es e s1 :
  nondecreasing last s (es ++ [e]) → run s es = Some s1 →
  nondecreasing last s es ∧ not_earlier (last_reading last s es) s1 e.
Proof.
  revert last s. induction es as [|e' es IH]; intros last s Hn Hrun.
  - simpl in *. simplify_eq. by destruct Hn.
  - change ((e' :: es) ++ [e]) with (e' :: (es ++ [e])) in Hn.
    cbn [nondecreasing run last_reading] in *.
    destruct (step s e') as [s'|]; [|done].
    destruct Hn as [Ht Hn]. destruct (IH _ _ Hn Hrun). by repeat split.
Qed.

Lemma step_pending_user s e s' last :
  last_is_pending_user_entry last s → not_earlier last s e →
  step s e = Some s' →
  last_is_pending_user_entry (advance last s e) s'.
Proof.
  unfold last_is_pending_user_entry, advance, not_earlier. intros Hu Ht H.
  destruct e as [v|c|k sh c|o|o c].
  - rewrite step_Change in H. destruct (isLoading (app s)) eqn:Hl; [done|].
    by simplify_eq.
  - rewrite send_time_Click in Ht |- *. rewrite step_Click in H.
    case_decide; [done|].
    destruct (isLoading (app s)) eqn:Hl; [done|]. simplify_eq.
    intros _. eexists _, _. split; [done|]. simpl. split; [done|lia].
  - rewrite send_time_KeyPress in Ht |- *. rewrite step_KeyPress in H.
    destruct (isLoading (app s)) eqn:Hl; [done|].
    destruct (bool_decide (k = js "Enter") && negb sh);
      [case_decide|]; simplify_eq; try by rewrite Hl.
    intros _. eexists _, _. split; [done|]. simpl. split; [done|lia].
  - rewrite step_StatusSettled in H. destruct (statusPending s); [|done].
    by simplify_eq.
  - rewrite step_ChatSettled in H. destruct (chatPending s); [done|].
    by simplify_eq.
Qed.

Lemma run_pending_user s es s' last :
  last_is_pending_user_entry last s → nondecreasing last s es →
  run s es = Some s' →
  last_is_pending_user_entry (last_reading last s es) s'.
Proof.
  revert s last. induction es as [|e es IH]; intros s last Hu Hn H.
  - simpl in *. by simplify_eq.
  - cbn [nondecreasing run last_reading] in *.
    destruct (step s e) as [s1|] eqn:Hstep; [|done].
    destruct Hn as [Ht Hn]. eapply IH; [|exact Hn|exact H].
    by apply (step_pending_user s e s1 last).
Qed.

(** X10.  As long as the clock does not run backwards, the entry a
    settling appends comes right after the user entry of its send and has
    a strictly greater id, so the two entries of one exchange never share
    a key. *)
Theorem reply_id_exceeds_its_user_entry_id c0 es s o c s' :
  nondecreasing 0 (mounted c0) (es ++ [ChatSettled o c]) →
  run (mounted c0) es = Some s →
  step s (ChatSettled o c) = Some s' →
  ∃ ms u m,
    messages (app s) = ms ++ [u]
    ∧ isUser u = Some true
    ∧ messages (app s') = ms ++ [u; m]
    ∧ isUser_truthy m = false
    ∧ id u < id m.
Proof.
  intros Hn Hrun Hstep.
  destruct (nondecreasing_snoc _ _ _ _ _ Hn Hrun) as [Hes Ht].
  unfold not_earlier in Ht. cbn [send_time settle_time] in Ht.
  assert (reachable s) as Hs.
  { eapply run_reachable; [apply reach_mounted|exact Hrun]. }
  assert (last_is_pending_user_entry (last_reading 0 (mounted c0) es) s)
    as Hu.
  { eapply run_pending_user; [|exact Hes|exact Hrun]. by intros ?. }
  rewrite step_ChatSettled in Hstep.
  destruct (reachable_consistent _ Hs) as [[_ Hp]|(Hl & _ & r & Hp)];
    rewrite Hp in Hstep; [done|]. simplify_eq.
  destruct (Hu Hl) as (ms & u & Hm & Hi & Hid).
  exists ms, u, (settled_entry o c). simpl in *.
  split; [done|]. split; [done|].
  split; [by rewrite Hm, <- app_assoc|].
  split; [apply isUser_truthy_settled_entry|].
  rewrite id_settled_entry. lia.
Qed.

Lemma reply_id_exceeds_its_user_entry_id_witness :
  nondecreasing 0 (mounted morning)
    ([Change (js "hi"); Click morning] ++ [ChatSettled hello_reply morning])
  ∧ run (mounted morning) [Change (js "hi"); Click morning] = Some waiting
  ∧ ∃ s' ms u m,
      step waiting (ChatSettled hello_reply morning) = Some s'
      ∧ messages (app waiting) = ms ++ [u]
      ∧ messages (app s') = ms ++ [u; m]
      ∧ id u < id m.
Proof.
  assert (nondecreasing 0 (mounted morning)
            ([Change (js "hi"); Click morning]
             ++ [ChatSettled hello_reply morning])) as Hn.
  { vm_compute. repeat split; done. }
  split; [exact Hn|]. split; [reflexivity|].
  destruct (reply_id_exceeds_its_user_entry_id morning
              [Change (js "hi"); Click morning] waiting hello_reply morning
              (settled waiting hello_reply morning) Hn eq_refl eq_refl)
    as (ms & u & m & H1 & _ & H3 & _ & H5).
  by exists (settled waiting hello_reply morning), ms, u, m.
Defined.

Lemma StronglySorted_snoc (l : list Z) (x : Z) :
  StronglySorted Z.lt l → Forall (λ y, y < x) l → StronglySorted Z.lt (l ++ [x]).
Proof.
  induction 1 as [|y l Hl IH Hy]; intros Hx; simpl.
  - by repeat constructor.
  - apply Forall_cons in Hx as [Hyx Hx]. constructor; [by apply IH|].
    apply Forall_app. split; [done|]. by repeat constructor.
Qed.

Lemma StronglySorted_lt_NoDup (l : list Z) : StronglySorted Z.lt l → NoDup l.
Proof.
  induction 1 as [|y l Hl IH Hy]; constructor; [|done].
  intros Hin. rewrite Forall_forall in Hy. specialize (Hy _ Hin). lia.
Qed.

Lemma run_ids_increasing s es s' last :
  reachable s → ids_below last s → ids_increasing s → spaced last s es →
  run s es = Some s' → ids_increasing s'.
Proof.
  revert s last. induction es as [|e es IH]; intros s last Hs Hb Hi Hsp H.
  - simpl in *. by simplify_eq.
  - cbn [spaced run] in *.
    destruct (step s e) as [s1|] eqn:Hstep; [|done].
    destruct Hsp as [Ht Hsp].
    destruct (step_ids s e s1 last Hs Hb Ht Hstep) as [Hb1 Happ].
    eapply (IH s1); [by eapply reach_step|exact Hb1| |exact Hsp|exact H].
    unfold ids_increasing in *.
    destruct (step_messages _ _ _ Hstep) as [-> | [m Hm]]; [done|].
    rewrite Hm, map_app. simpl. apply StronglySorted_snoc; [done|].
    destruct (Happ m Hm) as [Hlt _]. by apply Forall_fmap.
Qed.

(** X11.  When the clock does not run backwards and sends are more than
    one millisecond after the reading before them, the keys of the
    rendered rows increase strictly down the list, so no two rows share a
    key.  Only the readings the code makes count: a click or a key press
    that sends nothing reads no time. *)
Theorem row_keys_are_distinct_when_spaced c0 es s :
  spaced 0 (mounted c0) es →
  run (mounted c0) es = Some s →
  StronglySorted Z.lt (map key (chat_messages (render (app s))))
  ∧ NoDup (map key (chat_messages (render (app s)))).
Proof.
  intros Hsp Hrun.
  assert (map key (chat_messages (render (app s))) = map id (messages (app s)))
    as ->.
  { simpl. rewrite map_map. by apply map_ext. }
  assert (ids_increasing s) as Hi.
  { eapply (run_ids_increasing (mounted c0) es s 0);
      [apply reach_mounted| | |exact Hsp|exact Hrun].
    - unfold ids_below. simpl. by repeat constructor.
    - unfold ids_increasing. simpl. by repeat constructor. }
  split; [exact Hi|]. by apply StronglySorted_lt_NoDup.
Qed.

Lemma row_keys_are_distinct_when_spaced_witness :
  spaced 0 (mounted morning) (exchange_then_blank_enter ++ [Click (reading 13)])
  ∧ ∃ s,
      run (mounted morning) (exchange_then_blank_enter ++ [Click (reading 13)])
        = Some s
      ∧ map key (chat_messages (render (app s))) = [1; 10; 11; 13]
      ∧ NoDup (map key (chat_messages (render (app s)))).
Proof.
  assert (spaced 0 (mounted morning)
            (exchange_then_blank_enter ++ [Click (reading 13)])) as Hsp.
  { vm_compute. repeat split; done. }
  split; [exact Hsp|].
  eexists. split; [reflexivity|]. split; [reflexivity|].
  exact (proj2 (row_keys_are_distinct_when_spaced morning _ _ Hsp eq_refl)).
Defined.

(** ** The status response and the conversation *)

(** X12.  The status response and any other event can come in either
    order with the same result, the cases where one of the orders is not
    possible included: the status check and the conversation do not
    interfere. *)
Theorem status_response_commutes s e o :
  (step s (StatusSettled o) ≫= λ s1, step s1 e)
  = (step s e ≫= λ s2, step s2 (StatusSettled o)).
Proof.
  assert (∀ s2, statusPending s2 = statusPending s →
            step s2 (StatusSettled o) =
              if statusPending s then
                Some {| app := {| messages := messages (app s2);
                                  inputMessage := inputMessage (app s2);
                                  isLoading := isLoading (app s2);
                                  openaiStatus := status_of o |};
                        statusPending := false;
                        chatPending := chatPending s2 |}
              else None) as Hlater.
  { intros s2 Hs2. by rewrite step_StatusSettled, Hs2. }
  rewrite step_StatusSettled.
  destruct e as [v|c|k sh c|o'|o' c].
  - rewrite step_Change.
    destruct (statusPending s) eqn:Hp; cbn [mbind option_bind].
    + rewrite step_Change. cbn [app isLoading].
      destruct (isLoading (app s)) eqn:Hl; [done|].
      cbn [mbind option_bind]. rewrite Hlater by done.
      cbn [app isLoading]. by rewrite ?Hl.
    + destruct (isLoading (app s)) eqn:Hl; [done|].
      cbn [mbind option_bind]. rewrite Hlater by done.
      cbn [app isLoading]. by rewrite ?Hl.
  - rewrite step_Click.
    destruct (statusPending s) eqn:Hp; cbn [mbind option_bind].
    + rewrite step_Click. cbn [app isLoading inputMessage].
      case_decide; [done|]. destruct (isLoading (app s)) eqn:Hl; [done|].
      cbn [mbind option_bind]. rewrite Hlater by done.
      cbn [app isLoading]. by rewrite ?Hl.
    + case_decide; [done|]. destruct (isLoading (app s)) eqn:Hl; [done|].
      cbn [mbind option_bind]. rewrite Hlater by done.
      cbn [app isLoading]. by rewrite ?Hl.
  - rewrite step_KeyPress.
    destruct (statusPending s) eqn:Hp; cbn [mbind option_bind].
    + rewrite step_KeyPress. cbn [app isLoading inputMessage].
      destruct (isLoading (app s)) eqn:Hl; [done|].
      destruct (bool_decide (k = js "Enter") && negb sh); [case_decide|];
        cbn [mbind option_bind]; rewrite Hlater by done;
        cbn [app isLoading]; by rewrite ?Hl.
    + destruct (isLoading (app s)) eqn:Hl; [done|].
      destruct (bool_decide (k = js "Enter") && negb sh); [case_decide|];
        cbn [mbind option_bind]; rewrite Hlater by done;
        cbn [app isLoading]; by rewrite ?Hl.
  - rewrite step_StatusSettled.
    destruct (statusPending s) eqn:Hp; cbn [mbind option_bind]; [|done].
    by rewrite !step_StatusSettled.
  - rewrite step_ChatSettled.
    destruct (statusPending s) eqn:Hp; cbn [mbind option_bind].
    + rewrite step_ChatSettled. cbn [chatPending].
      destruct (chatPending s) eqn:Hc; [done|].
      cbn [mbind option_bind]. rewrite Hlater by done.
      unfold settled. cbn [app messages inputMessage isLoading openaiStatus
                           statusPending chatPending].
      by rewrite Hc.
    + destruct (chatPending s) eqn:Hc; [done|].
      cbn [mbind option_bind]. by rewrite Hlater.
Qed.


(** ** Typing, then sending *)

(** X13.  When no request is in flight, typing a text that is not blank
    and clicking send shows and sends the text exactly as typed, white
    space around it included: [trim] only decides whether to send.  The
    request carries [{message: text}], the last row shows the text as a
    user message, and the input field is empty afterwards. *)
Theorem text_is_sent_and_shown_as_typed s v c :
  isLoading (app s) = false → ¬ JsString.blank v →
  ∃ s1 s2,
    step s (Change v) = Some s1
    ∧ textarea_value (render (app s1)) = v
    ∧ step s1 (Click c) = Some s2
    ∧ chat_messages (render (app s2)) =
        chat_messages (render (app s)) ++
        [ {| key := now c;
             className := js "message user-message";
             message_text := VStr v;
             message_timestamp := localeTime c;
             message_avatar := js "👤" |} ]
    ∧ chatPending s2 =
        chatPending s ++
        [ {| url := js "/chat"; method := js "POST";
             headers := [(js "Content-Type", js "application/json")];
             body := VObj [(js "message", VStr v)] |} ]
    ∧ textarea_value (render (app s2)) = [].
Proof.
  intros Hl Hv.
  set (s1 := {| app := {| messages := messages (app s); inputMessage := v;
                          isLoading := false;
                          openaiStatus := openaiStatus (app s) |};
                statusPending := statusPending s;
                chatPending := chatPending s |}).
  assert (step s (Change v) = Some s1) as H1.
  { by rewrite step_Change, Hl. }
  assert (step s1 (Click c) = Some (sent s1 c)) as H2.
  { rewrite step_Click. subst s1. cbn [app inputMessage isLoading].
    by case_decide. }
  exists s1, (sent s1 c).
  split; [done|]. split; [done|]. split; [done|].
  split; [|done]. subst s1. simpl. by rewrite map_app.
Qed.

Lemma text_is_sent_and_shown_as_typed_witness :
  isLoading (app (mounted morning)) = false
  ∧ ¬ JsString.blank (js "  hi  ")
  ∧ ∃ s2,
      run (mounted morning) [Change (js "  hi  "); Click morning] = Some s2
      ∧ chatPending s2 = [chatRequest (js "  hi  ")].
Proof.
  assert (¬ JsString.blank (js "  hi  ")) as Hv.
  { by apply (bool_decide_eq_false_1 _). }
  split; [reflexivity|]. split; [exact Hv|].
  destruct (text_is_sent_and_shown_as_typed (mounted morning) (js "  hi  ")
              morning eq_refl Hv) as (s1 & s2 & H1 & _ & H3 & _ & H5 & _).
  exists s2. split; [|exact H5]. cbn [run]. by rewrite H1, H3.
Defined.

(** ** Losing the page *)

Lemma step_appended s e s' :
  step s e = Some s' →
  messages (app s') = messages (app s)
  ∨ (∃ i c, messages (app s') = messages (app s) ++ [userMessage i c])
  ∨ (∃ o c, messages (app s') = messages (app s) ++ [settled_entry o c]).
Proof. intros H. step_cases H; simpl; eauto 6. Qed.

Lemma reachable_only_replies_can_be_invalid s :
  reachable s →
  Forall (λ m, valid_child (text m) = false → isUser m = Some false)
         (messages (app s)).
Proof.
  induction 1 as [c|s e s' _ IH H]; [by repeat constructor|].
  destruct (step_appended _ _ _ H) as [-> | [(i & c & ->) | (o & c & ->)]];
    [done| |]; apply Forall_app; (split; [done|]); repeat constructor.
  - done.
  - unfold settled_entry. by destruct (reply_of o).
Qed.

(** X17.  The page can be lost only through a reply: in every reachable
    state the greeting, the user entries and the error entries are things
    React can show, so when nothing is displayed the list holds a reply
    entry whose text React cannot take as a child; and as long as every
    reply text is a string the page is there. *)
Theorem page_is_lost_only_through_a_reply s :
  reachable s →
  (displayed (app s) = None →
   ∃ m, m ∈ messages (app s) ∧ isUser m = Some false
        ∧ valid_child (text m) = false)
  ∧ (Forall (λ m, isUser m = Some false → ∃ str, text m = VStr str)
            (messages (app s)) →
     displayed (app s) = Some (render (app s))).
Proof.
  intros Hs. pose proof (reachable_only_replies_can_be_invalid _ Hs) as Hinv.
  unfold displayed.
  destruct (forallb (λ message, valid_child (text message))
                    (messages (app s))) eqn:Hall.
  - split; done.
  - assert (∃ m, m ∈ messages (app s) ∧ valid_child (text m) = false)
      as (m & Hin & Hv).
    { clear Hinv. induction (messages (app s)) as [|x l IH]; [done|].
      cbn [forallb] in Hall. apply andb_false_iff in Hall as [Hx|Hl].
      - exists x. split; [by left|done].
      - destruct (IH Hl) as (m & ? & ?). exists m. split; [by right|done]. }
    rewrite Forall_forall in Hinv. pose proof (Hinv _ Hin Hv) as Hu.
    split; [by eauto|].
    intros Hstr. rewrite Forall_forall in Hstr.
    destruct (Hstr _ Hin Hu) as [str Ht]. by rewrite Ht in Hv.
Qed.

Lemma page_is_lost_only_through_a_reply_witness :
  reachable waiting ∧ displayed (app waiting) = Some (render (app waiting)).
Proof.
  split; [apply waiting_reachable|].
  apply (proj2 (page_is_lost_only_through_a_reply waiting waiting_reachable)).
  repeat (apply Forall_cons_2; [intros _; by eexists|]). apply Forall_nil_2.
Defined.

(** * Properties of the setup script *)

Section SetupScriptProperties.
Import SetupScript.

Lemma files_echo text w : files (echo text w) = files w.
Proof. done. Qed.

Lemma exist_echo name text w : exist name (echo text w) = exist name w.
Proof. done. Qed.

Lemma files_setup_existing writable w :
  exist ".env" w = true → files (setup writable w) = files w.
Proof.
  intros H. unfold setup. cbv zeta. rewrite !exist_echo, H. done.
Qed.

Lemma files_echo_to writable text name w :
  files (echo_to writable text name w) =
    match files w !! name with
    | Some Directory => files w
    | Some (File _) | None =>
      if writable then <[name := File (text +:+ crlf)]> (files w)
      else files w
    end.
Proof.
  unfold echo_to. destruct (files w !! name) as [[]|]; by destruct writable.
Qed.

Lemma files_echo_append writable text name w :
  files (echo_append writable text name w) =
    match files w !! name with
    | Some Directory => files w
    | Some (File content) =>
      if writable
      then <[name := File (content +:+ text +:+ crlf)]> (files w)
      else files w
    | None =>
      if writable then <[name := File (text +:+ crlf)]> (files w)
      else files w
    end.
Proof.
  unfold echo_append.
  destruct (files w !! name) as [[]|]; by destruct writable.
Qed.

Lemma files_setup_absent writable w :
  exist ".env" w = false →
  files (setup writable w) =
    if writable
    then <[".env" := File ("OPENAI_API_KEY=your_openai_api_key_here " +:+ crlf
                           +:+ "OPENAI_MODEL=gpt-3.5-turbo " +:+ crlf)]>
           (files w)
    else files w.
Proof.
  intros H. unfold setup. cbv zeta. rewrite !exist_echo, H.
  cbn [negb]. rewrite !files_echo.
  apply bool_decide_eq_false_1 in H. rewrite <- eq_None_not_Some in H.
  rewrite files_echo_append, files_echo_to, !files_echo, H.
  destruct writable; [|by rewrite H].
  rewrite lookup_insert_eq. by rewrite insert_insert_eq.
Qed.

Lemma console_echo text w : console (echo text w) = console w ++ [text].
Proof. done. Qed.

Lemma console_echo_to writable text name w :
  console (echo_to writable text name w) = console w.
Proof.
  unfold echo_to. destruct (files w !! name) as [[]|]; by destruct writable.
Qed.

Lemma console_echo_append writable text name w :
  console (echo_append writable text name w) = console w.
Proof.
  unfold echo_append.
  destruct (files w !! name) as [[]|]; by destruct writable.
Qed.

Lemma console_setup writable w :
  console (setup writable w) =
    console w
    ++ ["Setting up OpenAI API for Chatbot..."; ""]
    ++ (if exist ".env" w then [".env file already exists!"]
        else ["Creating .env file..."; ""; ".env file created successfully!";
              "Please edit .env file and add your actual OpenAI API key"])
    ++ [""; "To get OpenAI API key:"; "1. Go to https://platform.openai.com/";
        "2. Sign up or login"; "3. Go to API Keys section";
        "4. Create new API key"; "5. Copy the key and paste it in .env file";
        ""; "After setting up, restart the backend server"].
Proof.
  unfold setup. cbv zeta. rewrite !exist_echo.
  destruct (exist ".env" w); cbn [negb];
    repeat rewrite ?console_echo, ?console_echo_append, ?console_echo_to;
    by rewrite <- !app_assoc.
Qed.

(** X14.  When the folder already has a [.env], file or directory, the
    script changes no entry of the folder, so a key put there is never
    overwritten, and what it prints says that the file exists and not that
    it was created. *)
Theorem setup_keeps_an_existing_env writable w :
  is_Some (files w !! ".env") →
  files (setup writable w) = files w
  ∧ ".env file already exists!" ∈ console (setup writable w)
  ∧ ".env file created successfully!" ∉
      drop (length (console w)) (console (setup writable w)).
Proof.
  intros H. assert (exist ".env" w = true) as He.
  { by apply bool_decide_eq_true_2. }
  split; [by apply files_setup_existing|].
  rewrite console_setup, He. split.
  - rewrite !elem_of_app. right. right. left. by left.
  - rewrite drop_app_length. by apply (bool_decide_eq_false_1 _).
Qed.

Lemma setup_keeps_an_existing_env_witness :
  is_Some (files configured !! ".env")
  ∧ files (setup true configured) = files configured.
Proof.
  assert (is_Some (files configured !! ".env")) as H.
  { by apply (bool_decide_unpack _). }
  split; [exact H|].
  exact (proj1 (setup_keeps_an_existing_env true configured H)).
Defined.

(** X15.  When the folder has no [.env] and can be written, the script
    creates the file with the two template lines, each ending in a space
    and a line end, and leaves a folder in which [.env] exists.  When the
    folder cannot be written nothing changes, and the script all the same
    prints that the file was created. *)
Theorem setup_creates_the_env_template w :
  files w !! ".env" = None →
  files (setup true w) !! ".env" =
    Some (File ("OPENAI_API_KEY=your_openai_api_key_here " +:+ crlf
                +:+ "OPENAI_MODEL=gpt-3.5-turbo " +:+ crlf))
  ∧ exist ".env" (setup true w) = true
  ∧ files (setup false w) = files w
  ∧ ".env file created successfully!" ∈ console (setup false w).
Proof.
  intros H. assert (exist ".env" w = false) as He.
  { apply bool_decide_eq_false_2. rewrite H. by intros [? ?]. }
  rewrite !files_setup_absent by done.
  split; [by rewrite lookup_insert_eq|]. split; [|split; [done|]].
  - unfold exist. apply bool_decide_eq_true_2.
    rewrite files_setup_absent by done. by rewrite lookup_insert_eq.
  - rewrite console_setup, He, !elem_of_app. right. right. left.
    by apply (bool_decide_unpack _).
Qed.

Lemma setup_creates_the_env_template_witness :
  files fresh !! ".env" = None
  ∧ exist ".env" (setup true fresh) = true.
Proof.
  split; [reflexivity|].
  exact (proj1 (proj2 (setup_creates_the_env_template fresh eq_refl))).
Defined.

(** X16.  The script touches no entry other than [.env].  Once a run
    has found [.env] or could write it, any further run, whether it can
    write or not, changes no entry; a run that found no [.env] and could
    not write leaves the folder as it was, so that a later run acts as a
    first one. *)
Theorem setup_is_idempotent_and_local writable w :
  (∀ name, name ≠ ".env" →
           files (setup writable w) !! name = files w !! name)
  ∧ (∀ again, files (setup again (setup true w)) = files (setup true w))
  ∧ (∀ again, is_Some (files w !! ".env") →
              files (setup again (setup writable w)) = files w)
  ∧ (∀ again, files (setup again (setup false w)) = files (setup again w)).
Proof.
  assert (∀ w1 w2, files w1 = files w2 → exist ".env" w1 = exist ".env" w2)
    as Hexist.
  { intros w1 w2 Hf. unfold exist. by rewrite Hf. }
  assert (∀ flag w1 w2, files w1 = files w2 →
            files (setup flag w1) = files (setup flag w2)) as Hsame.
  { intros flag w1 w2 Hf. pose proof (Hexist _ _ Hf) as He.
    destruct (exist ".env" w2) eqn:He2.
    - by rewrite !files_setup_existing.
    - rewrite !files_setup_absent by done. by rewrite Hf. }
  assert (files (setup false w) = files w) as Hfailed.
  { destruct (exist ".env" w) eqn:He.
    - by apply files_setup_existing.
    - by rewrite files_setup_absent. }
  split; [|split; [|split]].
  - intros name Hn. destruct (exist ".env" w) eqn:He.
    + by rewrite (files_setup_existing _ _ He).
    + rewrite (files_setup_absent _ _ He).
      destruct writable; [by rewrite lookup_insert_ne|done].
  - intros again. apply files_setup_existing.
    destruct (exist ".env" w) eqn:He.
    + by rewrite (Hexist _ w (files_setup_existing true w He)).
    + unfold exist. apply bool_decide_eq_true_2.
      rewrite (files_setup_absent true w He). by rewrite lookup_insert_eq.
  - intros again H. assert (exist ".env" w = true) as He.
    { by apply bool_decide_eq_true_2. }
    pose proof (files_setup_existing writable w He) as Hf.
    etrans; [|exact Hf]. apply files_setup_existing.
    by rewrite (Hexist _ w Hf).
  - intros again. by apply Hsame.
Qed.

End SetupScriptProperties.
